(** * django-recurrence: the form field's validation and the text codec

    The development follows [recurrence/forms.py].  [RecurrenceField.clean]
    deserializes its input into a fresh [Recurrence] object, clears the
    anchors the field does not accept, checks the four collection limits
    and the frequency whitelist, and returns the object.  Python objects
    live in a store, exceptions are an explicit outcome, and the method is
    written in a small state-and-exception monad so that its text can be
    compared with the Python line by line. *)

From Stdlib Require Import ZArith String Ascii.
From stdpp Require Import gmap strings list.

Local Open Scope Z_scope.

(** ** Data model *)

(** Modelled from the spec: the [recurrence] package is not among the
    sources, so its constants and classes are declared as the spec gives
    them.  The seven frequency constants, [recurrence.YEARLY] to
    [recurrence.SECONDLY], in the order the field's constructor lists
    them. *)
Inductive Frequency : Type :=
  | YEARLY | MONTHLY | WEEKLY | DAILY | HOURLY | MINUTELY | SECONDLY.

#[global] Instance Frequency_eq_dec : EqDecision Frequency.
Proof. solve_decision. Defined.

Record TimeOfDay : Type := mkTimeOfDay {
  hour : nat;
  minute : nat;
  second : nat
}.

(** Modelled from the spec: a timestamp is a calendar date, or a date
    with a time of day. *)
Record Timestamp : Type := mkTimestamp {
  year : nat;
  month : nat;
  day : nat;
  time : option TimeOfDay
}.

Inductive Weekday : Type := MO | TU | WE | TH | FR | SA | SU.

(** Modelled from the spec: a weekday token is a weekday with an
    optional signed ordinal ([3FR] is the third Friday). *)
Record WeekdayToken : Type := mkWeekdayToken {
  ordinal : option Z;
  weekday : Weekday
}.

(** Modelled from the spec: one recurring pattern.  [clean] reads the
    attribute [freq] only; the other fields are those of the spec's data
    model that the text format carries. *)
Record Rule : Type := mkRule {
  freq : Frequency;
  interval : nat;
  count : option nat;
  until : option Timestamp;
  bymonth : option (list Z);
  bymonthday : option (list Z);
  byday : option (list WeekdayToken);
  bysetpos : option (list Z)
}.

(** Modelled from the spec: [recurrence.Recurrence], two optional
    anchors and four collections.  [clean] assigns [dtstart] and [dtend]
    and takes the length of each collection. *)
Record Recurrence : Type := mkRecurrence {
  dtstart : option Timestamp;
  dtend : option Timestamp;
  rrules : list Rule;
  exrules : list Rule;
  rdates : list Timestamp;
  exdates : list Timestamp
}.

#[global] Instance TimeOfDay_eq_dec : EqDecision TimeOfDay.
Proof. solve_decision. Defined.
#[global] Instance Timestamp_eq_dec : EqDecision Timestamp.
Proof. solve_decision. Defined.
#[global] Instance Weekday_eq_dec : EqDecision Weekday.
Proof. solve_decision. Defined.
#[global] Instance WeekdayToken_eq_dec : EqDecision WeekdayToken.
Proof. solve_decision. Defined.
#[global] Instance Rule_eq_dec : EqDecision Rule.
Proof. solve_decision. Defined.
#[global] Instance Recurrence_eq_dec : EqDecision Recurrence.
Proof. solve_decision. Defined.

#[global] Instance Recurrence_inhabited : Inhabited Recurrence :=
  populate (mkRecurrence None None [] [] [] []).

(** Attribute assignment [obj.dtstart = v] and [obj.dtend = v]. *)
Definition with_dtstart (v : option Timestamp) (o : Recurrence) : Recurrence :=
  mkRecurrence v (dtend o) (rrules o) (exrules o) (rdates o) (exdates o).

Definition with_dtend (v : option Timestamp) (o : Recurrence) : Recurrence :=
  mkRecurrence (dtstart o) v (rrules o) (exrules o) (rdates o) (exdates o).

(** ** Exceptions and the object store *)

(** The argument of a [ValidationError]: a message as it stands in the
    table of error messages, or a template applied with [%] to the
    mapping [{'limit': n}].  The application is kept as a term and is not
    evaluated.  On the templates of the class, which hold the one
    directive [%(limit)s], the application yields the text with the limit
    written in; on a template of the caller it may fail, which the term
    does not show.  So a statement that names a limit error is made for
    fields built without an [error_messages] argument; statements about
    returning or raising, about the store, and equalities of two outcomes
    hold for every field. *)
Inductive Message : Type :=
  | Plain (text : string)
  | Interpolated (template : string) (limit : Z).

Inductive Exception : Type :=
  | ValidationError (message : Message)
  | KeyError (key : string)
  | FormatError (line : nat) (reason : string).

#[global] Instance Message_eq_dec : EqDecision Message.
Proof. solve_decision. Defined.
#[global] Instance Exception_eq_dec : EqDecision Exception.
Proof. solve_decision. Defined.

Inductive Outcome (A : Type) : Type :=
  | Return (a : A)
  | Raise (e : Exception).
Arguments Return {A} a.
Arguments Raise {A} e.

(** References to [Recurrence] objects and the store that holds them. *)
Definition loc : Type := positive.
Abbreviation store := (gmap positive Recurrence).

(** A computation reads and updates the store and returns or raises. *)
Definition Py (A : Type) : Type := store -> Outcome A * store.

#[global] Instance Py_ret : MRet Py := fun A a h => (Return a, h).

#[global] Instance Py_bind : MBind Py := fun A B k c h =>
  match c h with
  | (Return a, h') => k a h'
  | (Raise e, h') => (Raise e, h')
  end.

Definition raise {A : Type} (e : Exception) : Py A := fun h => (Raise e, h).

(** [if c: body] *)
Definition when (c : bool) (body : Py ()) : Py () :=
  if c then body else mret ().

(** [for x in xs: body] *)
Fixpoint for_ {A : Type} (xs : list A) (body : A -> Py ()) : Py () :=
  match xs with
  | [] => mret ()
  | x :: rest => body x;; for_ rest body
  end.

(** [d[key]] on a dictionary of messages: a missing key raises
    [KeyError]. *)
Definition getitem (d : gmap string string) (key : string) : Py string :=
  match d !! key with
  | Some v => mret v
  | None => raise (KeyError key)
  end.

(** Creation of a new object: it is stored at a reference the store
    does not use yet. *)
Definition new (o : Recurrence) : Py loc := fun h =>
  let l := fresh (dom h) in (Return l, <[l := o]> h).

(** Attribute reads and writes through a reference. *)
Definition get {A : Type} (field : Recurrence -> A) (l : loc) : Py A :=
  fun h => (Return (field (h !!! l)), h).

Definition set_dtstart (l : loc) (v : option Timestamp) : Py () :=
  fun h => (Return (), alter (with_dtstart v) l h).

Definition set_dtend (l : loc) (v : option Timestamp) : Py () :=
  fun h => (Return (), alter (with_dtend v) l h).

(** ** The field *)

(** [RecurrenceField.default_error_messages], keys and texts as the class
    spells them. *)
Definition default_error_messages : gmap string string :=
  {[ "invalid_freqency" := "Invalid frequency.";
     "max_rrules_exceeded" := "Max rules exceeded. The limit is %(limit)s";
     "max_exrules_exceeded" :=
       "Max exclusion rules exceeded. The limit is %(limit)s";
     "max_rdates_exceeded" := "Max dates exceeded. The limit is %(limit)s";
     "max_exdates_exceeded" :=
       "Max exclusion dates exceeded. The limit is %(limit)s" ]}%string.

(** The attributes of a field instance.  [error_messages] is the table
    the base class builds in its constructor. *)
Record RecurrenceField : Type := mkRecurrenceField {
  accept_dtstart : bool;
  accept_dtend : bool;
  max_rrules : option Z;
  max_exrules : option Z;
  max_rdates : option Z;
  max_exdates : option Z;
  frequencies : list Frequency;
  error_messages : gmap string string
}.

Section Field.

(** What [recurrence.deserialize] reads from a text: a recurrence
    value, or an exception. *)
Variable parser : string -> Outcome Recurrence.

(** The messages [forms.CharField] and its bases declare in their
    [default_error_messages]. *)
Variable inherited_error_messages : gmap string string.

(** Modelled from the spec: [recurrence.deserialize] is not among the
    sources.  By the spec a model is created by the parse and owned by the
    caller that holds it, with no mutable state shared across calls: the
    value read is stored as a new object, and a text that cannot be read
    raises. *)
Definition deserialize (value : string) : Py loc :=
  match parser value with
  | Return o => new o
  | Raise e => raise e
  end.

(** The base constructor collects [default_error_messages] along the
    class hierarchy, a subclass overriding its bases, and then applies
    the [error_messages] argument.  Unions of maps prefer the left. *)
Definition build_error_messages (supplied : option (gmap string string))
  : gmap string string :=
  default (∅ : gmap string string) supplied
    ∪ (default_error_messages ∪ inherited_error_messages).

Definition __init__
    (frequencies : option (list Frequency))
    (accept_dtstart accept_dtend : bool)
    (max_rrules max_exrules max_rdates max_exdates : option Z)
    (error_messages : option (gmap string string)) : RecurrenceField :=
  mkRecurrenceField accept_dtstart accept_dtend
    max_rrules max_exrules max_rdates max_exdates
    (match frequencies with
     | Some fs => fs
     | None =>
         [YEARLY; MONTHLY; WEEKLY; DAILY; HOURLY; MINUTELY; SECONDLY]
     end)
    (build_error_messages error_messages).

Definition clean (self : RecurrenceField) (value : string) : Py loc :=
  recurrence_obj ← deserialize value;

  when (negb (accept_dtstart self))
    (set_dtstart recurrence_obj None);;
  when (negb (accept_dtend self))
    (set_dtend recurrence_obj None);;

  match max_rrules self with
  | Some max =>
      xs ← get rrules recurrence_obj;
      when (bool_decide (Z.of_nat (length xs) > max))
        (template ← getitem (error_messages self) "max_rrules_exceeded";
         raise (ValidationError (Interpolated template max)))
  | None => mret ()
  end;;
  match max_exrules self with
  | Some max =>
      xs ← get exrules recurrence_obj;
      when (bool_decide (Z.of_nat (length xs) > max))
        (template ← getitem (error_messages self) "max_exrules_exceeded";
         raise (ValidationError (Interpolated template max)))
  | None => mret ()
  end;;
  match max_rdates self with
  | Some max =>
      xs ← get rdates recurrence_obj;
      when (bool_decide (Z.of_nat (length xs) > max))
        (template ← getitem (error_messages self) "max_rdates_exceeded";
         raise (ValidationError (Interpolated template max)))
  | None => mret ()
  end;;
  match max_exdates self with
  | Some max =>
      xs ← get exdates recurrence_obj;
      when (bool_decide (Z.of_nat (length xs) > max))
        (template ← getitem (error_messages self) "max_exdates_exceeded";
         raise (ValidationError (Interpolated template max)))
  | None => mret ()
  end;;

  xs ← get rrules recurrence_obj;
  for_ xs (fun rrule =>
    when (bool_decide (freq rrule ∉ frequencies self))
      (message ← getitem (error_messages self) "invalid_frequency";
       raise (ValidationError (Plain message))));;
  xs ← get exrules recurrence_obj;
  for_ xs (fun exrule =>
    when (bool_decide (freq exrule ∉ frequencies self))
      (message ← getitem (error_messages self) "invalid_frequency";
       raise (ValidationError (Plain message))));;

  mret recurrence_obj.

End Field.

(** ** What a run of [clean] amounts to *)

(** The four collections the limits are about, in the order [clean]
    checks them. *)
Inductive Collection : Type := Rrules | Exrules | Rdates | Exdates.

#[global] Instance Collection_eq_dec : EqDecision Collection.
Proof. solve_decision. Defined.

Definition collections : list Collection := [Rrules; Exrules; Rdates; Exdates].

Definition limit_key (c : Collection) : string :=
  match c with
  | Rrules => "max_rrules_exceeded"
  | Exrules => "max_exrules_exceeded"
  | Rdates => "max_rdates_exceeded"
  | Exdates => "max_exdates_exceeded"
  end.

Definition policy_max (self : RecurrenceField) (c : Collection) : option Z :=
  match c with
  | Rrules => max_rrules self
  | Exrules => max_exrules self
  | Rdates => max_rdates self
  | Exdates => max_exdates self
  end.

Definition size_of (c : Collection) (o : Recurrence) : nat :=
  match c with
  | Rrules => length (rrules o)
  | Exrules => length (exrules o)
  | Rdates => length (rdates o)
  | Exdates => length (exdates o)
  end.

(** The object after the two conditional clears. *)
Definition cleared (self : RecurrenceField) (o : Recurrence) : Recurrence :=
  let o1 := if accept_dtstart self then o else with_dtstart None o in
  if accept_dtend self then o1 else with_dtend None o1.

(** [o'] is [o] after the clears of the field, said field by field: an
    anchor the field does not accept is absent, an accepted anchor and the
    four collections are those of [o]. *)
Definition anchors_cleared (self : RecurrenceField) (o o' : Recurrence)
  : Prop :=
  dtstart o' = (if accept_dtstart self then dtstart o else None)
  /\ dtend o' = (if accept_dtend self then dtend o else None)
  /\ rrules o' = rrules o
  /\ exrules o' = exrules o
  /\ rdates o' = rdates o
  /\ exdates o' = exdates o.

(** What the statement
    [raise ValidationError(self.error_messages[key] % {'limit': max})]
    raises in the model: the lookup comes first and may fail, and the
    application of [%] is the term [Interpolated], exact for the templates
    of the class. *)
Definition limit_failure (self : RecurrenceField) (c : Collection) (max : Z)
  : Exception :=
  match error_messages self !! limit_key c with
  | Some template => ValidationError (Interpolated template max)
  | None => KeyError (limit_key c)
  end.

(** What [raise ValidationError(self.error_messages['invalid_frequency'])]
    raises. *)
Definition frequency_failure (self : RecurrenceField) : Exception :=
  match error_messages self !! "invalid_frequency"%string with
  | Some message => ValidationError (Plain message)
  | None => KeyError "invalid_frequency"
  end.

Definition exceeds (self : RecurrenceField) (o : Recurrence) (c : Collection)
  : Prop :=
  match policy_max self c with
  | Some max => Z.of_nat (size_of c o) > max
  | None => False
  end.

#[global] Instance exceeds_dec self o c : Decision (exceeds self o c).
Proof. unfold exceeds. destruct (policy_max self c); apply _. Defined.

Definition disallowed (self : RecurrenceField) (r : Rule) : Prop :=
  freq r ∉ frequencies self.

#[global] Instance disallowed_dec self r : Decision (disallowed self r).
Proof. unfold disallowed. apply _. Defined.

(** The exception the limit check of collection [c] raises on [o], if
    it raises. *)
Definition limit_violation (self : RecurrenceField) (o : Recurrence)
    (c : Collection) : option Exception :=
  match policy_max self c with
  | Some max =>
      if bool_decide (Z.of_nat (size_of c o) > max)
      then Some (limit_failure self c max)
      else None
  | None => None
  end.

(** Every constraint of the field the object violates, each with the
    exception its check raises, in the order of the checks: the
    collections, then the rules of [rrules], then those of [exrules]. *)
Definition violations (self : RecurrenceField) (o : Recurrence)
  : list Exception :=
  omap (limit_violation self o) collections
  ++ ((fun _ => frequency_failure self)
        <$> filter (disallowed self) (rrules o ++ exrules o)).

(** The collections checked before [c]. *)
Definition before (c : Collection) : list Collection :=
  match c with
  | Rrules => []
  | Exrules => [Rrules]
  | Rdates => [Rrules; Exrules]
  | Exdates => [Rrules; Exrules; Rdates]
  end.

(** The template of each limit message in [default_error_messages]. *)
Definition limit_template (c : Collection) : string :=
  default_error_messages !!! limit_key c.

(** The outcome of the checks on an object stored at [l]. *)
Definition verdict (self : RecurrenceField) (o : Recurrence) (l : loc)
  : Outcome loc :=
  match violations self o with
  | [] => Return l
  | e :: _ => Raise e
  end.

(** [LimitExceeded{collection, limit}] as a field without an
    [error_messages] argument raises it: the [ValidationError] whose
    message is the collection's template applied to the limit. *)
Definition LimitExceeded (c : Collection) (limit : Z) : Exception :=
  ValidationError (Interpolated (limit_template c) limit).

(** ** Concrete inputs *)

(** Rules and a model used as concrete inputs. *)
Definition daily : Rule := mkRule DAILY 1 None None None None None None.
Definition weekly : Rule := mkRule WEEKLY 1 None None None None None None.
Definition monthly : Rule := mkRule MONTHLY 1 None None None None None None.

(** The messages [forms.Field] and [forms.CharField] declare, for
    concrete runs. *)
Definition charfield_error_messages : gmap string string :=
  {[ "required" := "This field is required.";
     "invalid" := "Enter a valid value.";
     "max_length" :=
       "Ensure this value has at most %(max)d characters (it has %(length)d).";
     "min_length" :=
       "Ensure this value has at least %(min)d characters (it has %(length)d)."
  ]}%string.

(** A parser that yields the given object, for runs on a known model. *)
Definition parsed (o : Recurrence) : string -> Outcome Recurrence :=
  fun _ => Return o.

Definition new_year : Timestamp :=
  mkTimestamp 2024 1 1 (Some (mkTimeOfDay 9 0 0)).

(** A model that violates three constraints of [weekly_only] at once: too
    many rrules, too many exdates, and frequencies outside the whitelist. *)
Definition crowded : Recurrence :=
  mkRecurrence (Some new_year) None [daily; monthly] [] [] [new_year].

Definition weekly_only : RecurrenceField :=
  __init__ charfield_error_messages (Some [WEEKLY]) false true
    (Some 1) None None (Some 0) None.

(** A model that uses every construct of the format. *)
Definition third_friday : Rule :=
  mkRule MONTHLY 2 (Some 10%nat) None (Some [1; 12]%Z) (Some [-1]%Z)
    (Some [mkWeekdayToken (Some 3%Z) FR; mkWeekdayToken None MO;
           mkWeekdayToken (Some (-1)%Z) SU])
    (Some [-1; 2]%Z).

Definition until_new_year : Rule :=
  mkRule DAILY 1 None (Some new_year) None None None None.

Definition busy : Recurrence :=
  mkRecurrence (Some new_year) None [third_friday; until_new_year]
    [third_friday] [new_year; mkTimestamp 1999 12 31 None] [].

Local Open Scope nat_scope.

(** ** The text format *)

(** Text is handled as a list of characters. *)
Abbreviation text := (list ascii).

Definition chars (s : string) : text := list_ascii_of_string s.

(** *** Characters *)

Definition digit (d : nat) : ascii := ascii_of_nat (48 + d).

Definition digit_value (c : ascii) : option nat :=
  let n := nat_of_ascii c in
  if bool_decide (48 <= n <= 57) then Some (n - 48) else None.

Definition is_upper (c : ascii) : bool :=
  bool_decide (65 <= nat_of_ascii c <= 90).

(** Characters by the level of the grammar at which they separate: the
    characters of a token, then the separators of a list, of a key and
    its value, of the parts of a rule, of a directive and its body, and
    everything else (white space, line ends). *)
Definition rank (c : ascii) : nat :=
  if bool_decide (is_Some (digit_value c)) || is_upper c
     || bool_decide (c = "-"%char) then 0
  else if bool_decide (c = ","%char) then 1
  else if bool_decide (c = "="%char) then 2
  else if bool_decide (c = ";"%char) then 3
  else if bool_decide (c = ":"%char) then 4
  else 5.

Definition below (n : nat) (s : text) : Prop :=
  Forall (fun c => rank c < n) s.

Definition newline : ascii := ascii_of_nat 10.

Definition is_space (c : ascii) : bool :=
  bool_decide (c = " "%char) || bool_decide (c = ascii_of_nat 9)
  || bool_decide (c = ascii_of_nat 13).

(** *** Splitting and joining *)

(** The pieces of [s] between the occurrences of [sep]. *)
Fixpoint split_on (sep : ascii) (s : text) : list text :=
  match s with
  | [] => [[]]
  | c :: rest =>
      if bool_decide (c = sep) then [] :: split_on sep rest
      else match split_on sep rest with
           | [] => [[c]]
           | piece :: pieces => (c :: piece) :: pieces
           end
  end.

(** [s] cut at the first occurrence of [sep]. *)
Fixpoint cut (sep : ascii) (s : text) : option (text * text) :=
  match s with
  | [] => None
  | c :: rest =>
      if bool_decide (c = sep) then Some ([], rest)
      else '(before, after) ← cut sep rest; Some (c :: before, after)
  end.

Fixpoint join (sep : ascii) (pieces : list text) : text :=
  match pieces with
  | [] => []
  | [piece] => piece
  | piece :: rest => piece ++ sep :: join sep rest
  end.

(** Every line followed by a line end. *)
Definition unlines (lines : list text) : text :=
  concat ((fun l => l ++ [newline]) <$> lines).

Fixpoint strip_left (s : text) : text :=
  match s with
  | c :: rest => if is_space c then strip_left rest else s
  | [] => []
  end.

Definition strip (s : text) : text :=
  reverse (strip_left (reverse (strip_left s))).

(** *** Numbers *)

Fixpoint print_nat_aux (fuel n : nat) : text :=
  match fuel with
  | 0 => []
  | S fuel' =>
      if n <? 10 then [digit n]
      else print_nat_aux fuel' (n / 10) ++ [digit (n mod 10)]
  end.

(** Decimal digits, most significant first, no sign and no padding. *)
Definition print_nat (n : nat) : text := print_nat_aux (S n) n.

Definition parse_digits (s : text) : option nat :=
  foldl (fun acc c => n ← acc; d ← digit_value c; Some (10 * n + d))
        (Some 0) s.

Definition parse_nat (s : text) : option nat :=
  match s with
  | [] => None
  | _ => parse_digits s
  end.

Definition print_int (z : Z) : text :=
  if bool_decide (z < 0)%Z then "-"%char :: print_nat (Z.abs_nat z)
  else print_nat (Z.to_nat z).

Definition parse_int (s : text) : option Z :=
  match s with
  | "-"%char :: rest => (fun n => (- Z.of_nat n)%Z) <$> parse_nat rest
  | "+"%char :: rest => Z.of_nat <$> parse_nat rest
  | _ => Z.of_nat <$> parse_nat s
  end.

Definition print_2 (n : nat) : text := [digit (n / 10); digit (n mod 10)].

Definition parse_2 (a b : ascii) : option nat :=
  x ← digit_value a; y ← digit_value b; Some (10 * x + y).


(** *** Parsing results *)

(** A piece of text is parsed to a value or refused with a reason. *)
Inductive Parsed (A : Type) : Type :=
  | Ok (a : A)
  | Refused (reason : string).
Arguments Ok {A} a.
Arguments Refused {A} reason.

#[global] Instance Parsed_ret : MRet Parsed := fun A a => Ok a.

#[global] Instance Parsed_bind : MBind Parsed := fun A B k p =>
  match p with
  | Ok a => k a
  | Refused reason => Refused reason
  end.

Definition expect {A : Type} (reason : string) (o : option A) : Parsed A :=
  match o with
  | Some a => Ok a
  | None => Refused reason
  end.

(** A list of items separated by commas. *)
Definition print_csv {A : Type} (print : A -> text) (xs : list A) : text :=
  join ","%char (print <$> xs).

Definition parse_csv {A : Type} (parse : text -> option A) (s : text)
  : option (list A) :=
  mapM parse (split_on ","%char s).

(** *** Tokens *)

Definition print_frequency (f : Frequency) : text :=
  chars match f with
        | YEARLY => "YEARLY"
        | MONTHLY => "MONTHLY"
        | WEEKLY => "WEEKLY"
        | DAILY => "DAILY"
        | HOURLY => "HOURLY"
        | MINUTELY => "MINUTELY"
        | SECONDLY => "SECONDLY"
        end.

Definition parse_frequency (s : text) : option Frequency :=
  find (fun f => bool_decide (print_frequency f = s))
       [YEARLY; MONTHLY; WEEKLY; DAILY; HOURLY; MINUTELY; SECONDLY].

Definition print_weekday (w : Weekday) : text :=
  chars match w with
        | MO => "MO" | TU => "TU" | WE => "WE" | TH => "TH"
        | FR => "FR" | SA => "SA" | SU => "SU"
        end.

Definition parse_weekday (s : text) : option Weekday :=
  find (fun w => bool_decide (print_weekday w = s))
       [MO; TU; WE; TH; FR; SA; SU].

(** A weekday token is its two letters, with the ordinal in front when
    there is one. *)
Definition print_weekday_token (t : WeekdayToken) : text :=
  match ordinal t with
  | Some z => print_int z
  | None => []
  end ++ print_weekday (weekday t).

Definition parse_weekday_token (s : text) : option WeekdayToken :=
  let n := length s in
  if n <? 2 then None
  else
    w ← parse_weekday (drop (n - 2) s);
    o ← match take (n - 2) s with
        | [] => Some None
        | prefix => Some <$> parse_int prefix
        end;
    Some (mkWeekdayToken o w).

(** *** Timestamps: [YYYYMMDD] or [YYYYMMDDTHHMMSS] *)

Definition print_time_of_day (t : TimeOfDay) : text :=
  print_2 (hour t) ++ print_2 (minute t) ++ print_2 (second t).

Definition print_timestamp (t : Timestamp) : text :=
  print_2 (year t / 100) ++ print_2 (year t mod 100)
  ++ print_2 (month t) ++ print_2 (day t)
  ++ match time t with
     | Some tod => "T"%char :: print_time_of_day tod
     | None => []
     end.

Definition parse_time_of_day (s : text) : option TimeOfDay :=
  match s with
  | [h1; h2; m1; m2; s1; s2] =>
      h ← parse_2 h1 h2; m ← parse_2 m1 m2; s ← parse_2 s1 s2;
      Some (mkTimeOfDay h m s)
  | _ => None
  end.

Definition parse_timestamp (s : text) : option Timestamp :=
  match s with
  | y1 :: y2 :: y3 :: y4 :: m1 :: m2 :: d1 :: d2 :: rest =>
      yh ← parse_2 y1 y2; yl ← parse_2 y3 y4;
      m ← parse_2 m1 m2; d ← parse_2 d1 d2;
      match rest with
      | [] => Some (mkTimestamp (100 * yh + yl) m d None)
      | "T"%char :: clock =>
          tod ← parse_time_of_day clock;
          Some (mkTimestamp (100 * yh + yl) m d (Some tod))
      | _ => None
      end
  | _ => None
  end.

(** *** Rules *)

(** A rule with one field replaced. *)
Definition set_interval (n : nat) (r : Rule) : Rule :=
  mkRule (freq r) n (count r) (until r)
         (bymonth r) (bymonthday r) (byday r) (bysetpos r).
Definition set_count (n : nat) (r : Rule) : Rule :=
  mkRule (freq r) (interval r) (Some n) (until r)
         (bymonth r) (bymonthday r) (byday r) (bysetpos r).
Definition set_until (t : Timestamp) (r : Rule) : Rule :=
  mkRule (freq r) (interval r) (count r) (Some t)
         (bymonth r) (bymonthday r) (byday r) (bysetpos r).
Definition set_bymonth (xs : list Z) (r : Rule) : Rule :=
  mkRule (freq r) (interval r) (count r) (until r)
         (Some xs) (bymonthday r) (byday r) (bysetpos r).
Definition set_bymonthday (xs : list Z) (r : Rule) : Rule :=
  mkRule (freq r) (interval r) (count r) (until r)
         (bymonth r) (Some xs) (byday r) (bysetpos r).
Definition set_byday (xs : list WeekdayToken) (r : Rule) : Rule :=
  mkRule (freq r) (interval r) (count r) (until r)
         (bymonth r) (bymonthday r) (Some xs) (bysetpos r).
Definition set_bysetpos (xs : list Z) (r : Rule) : Rule :=
  mkRule (freq r) (interval r) (count r) (until r)
         (bymonth r) (bymonthday r) (byday r) (Some xs).

(** [KEY=value] *)
Definition key_value (key : string) (value : text) : text :=
  chars key ++ "="%char :: value.

(** The part of an optional field, when the field is present. *)
Definition optional {A : Type} (key : string) (print : A -> text)
    (o : option A) : list text :=
  match o with
  | Some a => [key_value key (print a)]
  | None => []
  end.

(** The parts of a rule in the canonical key order.  [FREQ] is always
    there; [INTERVAL] is left out when it is the default [1]. *)
Definition rule_parts (r : Rule) : list text :=
  [key_value "FREQ" (print_frequency (freq r))]
  ++ (if interval r =? 1 then []
      else [key_value "INTERVAL" (print_nat (interval r))])
  ++ optional "COUNT" print_nat (count r)
  ++ optional "UNTIL" print_timestamp (until r)
  ++ optional "BYMONTH" (print_csv print_int) (bymonth r)
  ++ optional "BYMONTHDAY" (print_csv print_int) (bymonthday r)
  ++ optional "BYDAY" (print_csv print_weekday_token) (byday r)
  ++ optional "BYSETPOS" (print_csv print_int) (bysetpos r).

Definition print_rule (r : Rule) : text := join ";"%char (rule_parts r).

(** A part of a rule is a key, [=], and a value. *)
Definition parse_pair (s : text) : Parsed (text * text) :=
  expect "malformed key=value pair" (cut "="%char s).

(** One [KEY=value] part after [FREQ], applied to the rule read so far. *)
Definition rule_part (r : Rule) (key value : text) : Parsed Rule :=
  if bool_decide (key = chars "INTERVAL") then
    n ← expect "integer expected" (parse_nat value); Ok (set_interval n r)
  else if bool_decide (key = chars "COUNT") then
    n ← expect "integer expected" (parse_nat value); Ok (set_count n r)
  else if bool_decide (key = chars "UNTIL") then
    t ← expect "malformed timestamp" (parse_timestamp value);
    Ok (set_until t r)
  else if bool_decide (key = chars "BYMONTH") then
    xs ← expect "integer expected" (parse_csv parse_int value);
    Ok (set_bymonth xs r)
  else if bool_decide (key = chars "BYMONTHDAY") then
    xs ← expect "integer expected" (parse_csv parse_int value);
    Ok (set_bymonthday xs r)
  else if bool_decide (key = chars "BYDAY") then
    xs ← expect "malformed weekday" (parse_csv parse_weekday_token value);
    Ok (set_byday xs r)
  else if bool_decide (key = chars "BYSETPOS") then
    xs ← expect "integer expected" (parse_csv parse_int value);
    Ok (set_bysetpos xs r)
  else Refused "unknown key".

(** The parts after the first are read from left to right; a key given
    twice keeps its last value. *)
Definition rule_step (acc : Parsed Rule) (part : text) : Parsed Rule :=
  r ← acc; kv ← parse_pair part; rule_part r kv.1 kv.2.

(** The body of a rule: [FREQ] first, then the other parts; a rule with
    both a count and an until is refused. *)
Definition parse_rule (body : text) : Parsed Rule :=
  match split_on ";"%char body with
  | [] => Refused "malformed key=value pair"
  | first :: parts =>
      kv ← parse_pair first;
      if bool_decide (kv.1 = chars "FREQ") then
        f ← expect "unknown frequency" (parse_frequency kv.2);
        r ← foldl rule_step
              (Ok (mkRule f 1 None None None None None None)) parts;
        match count r, until r with
        | Some _, Some _ => Refused "both count and until"
        | _, _ => Ok r
        end
      else Refused "FREQ expected"
  end.

(** *** Directives and models *)

(** [KEYWORD:body] *)
Definition directive (keyword : string) (body : text) : text :=
  chars keyword ++ ":"%char :: body.

(** The line of an anchor that is present, the one line of a collection
    of dates that is not empty. *)
Definition anchor_line (keyword : string) (o : option Timestamp) : list text :=
  match o with
  | Some t => [directive keyword (print_timestamp t)]
  | None => []
  end.

Definition dates_line (keyword : string) (ts : list Timestamp) : list text :=
  match ts with
  | [] => []
  | _ => [directive keyword (print_csv print_timestamp ts)]
  end.

(** One directive per line, in the order DTSTART, DTEND, RRULE, EXRULE,
    RDATE, EXDATE. *)
Definition model_lines (m : Recurrence) : list text :=
  anchor_line "DTSTART" (dtstart m)
  ++ anchor_line "DTEND" (dtend m)
  ++ ((fun r => directive "RRULE" (print_rule r)) <$> rrules m)
  ++ ((fun r => directive "EXRULE" (print_rule r)) <$> exrules m)
  ++ dates_line "RDATE" (rdates m)
  ++ dates_line "EXDATE" (exdates m).

(** Modelled from the spec: [recurrence.serialize] is not among the
    sources.  It never fails and writes one directive per line in the
    fixed order, one line per rule, the fields of a rule in a fixed key
    order. *)
Definition serialize (m : Recurrence) : string :=
  string_of_list_ascii (unlines (model_lines m)).

(** What a directive adds to the model read so far: a rule at the end of
    its collection, dates at the end of theirs. *)
Definition add_rrule (r : Rule) (m : Recurrence) : Recurrence :=
  mkRecurrence (dtstart m) (dtend m) (rrules m ++ [r]) (exrules m)
               (rdates m) (exdates m).
Definition add_exrule (r : Rule) (m : Recurrence) : Recurrence :=
  mkRecurrence (dtstart m) (dtend m) (rrules m) (exrules m ++ [r])
               (rdates m) (exdates m).
Definition add_rdates (ts : list Timestamp) (m : Recurrence) : Recurrence :=
  mkRecurrence (dtstart m) (dtend m) (rrules m) (exrules m)
               (rdates m ++ ts) (exdates m).
Definition add_exdates (ts : list Timestamp) (m : Recurrence) : Recurrence :=
  mkRecurrence (dtstart m) (dtend m) (rrules m) (exrules m)
               (rdates m) (exdates m ++ ts).

(** A directive applied to the model read so far. *)
Definition parse_directive (m : Recurrence) (keyword body : text)
  : Parsed Recurrence :=
  if bool_decide (keyword = chars "DTSTART") then
    t ← expect "malformed timestamp" (parse_timestamp body);
    Ok (with_dtstart (Some t) m)
  else if bool_decide (keyword = chars "DTEND") then
    t ← expect "malformed timestamp" (parse_timestamp body);
    Ok (with_dtend (Some t) m)
  else if bool_decide (keyword = chars "RRULE") then
    r ← parse_rule body; Ok (add_rrule r m)
  else if bool_decide (keyword = chars "EXRULE") then
    r ← parse_rule body; Ok (add_exrule r m)
  else if bool_decide (keyword = chars "RDATE") then
    ts ← expect "malformed timestamp" (parse_csv parse_timestamp body);
    Ok (add_rdates ts m)
  else if bool_decide (keyword = chars "EXDATE") then
    ts ← expect "malformed timestamp" (parse_csv parse_timestamp body);
    Ok (add_exdates ts m)
  else Refused "unknown directive".

(** A line, white space around it dropped; an empty line says nothing. *)
Definition parse_line (m : Recurrence) (line : text) : Parsed Recurrence :=
  match strip line with
  | [] => Ok m
  | l =>
      kb ← expect "unknown directive" (cut ":"%char l);
      parse_directive m kb.1 kb.2
  end.

(** The lines from line number [n] on. *)
Fixpoint parse_lines (n : nat) (lines : list text) (m : Recurrence)
  : Outcome Recurrence :=
  match lines with
  | [] => Return m
  | line :: rest =>
      match parse_line m line with
      | Ok m' => parse_lines (S n) rest m'
      | Refused reason => Raise (FormatError n reason)
      end
  end.

(** Modelled from the spec: [recurrence.deserialize] is not among the
    sources.  The text is read line by line into a model that starts
    empty; a line that is refused fails with [FormatError] and the number
    of the line. *)
Definition parse (value : string) : Outcome Recurrence :=
  parse_lines 1 (split_on newline (list_ascii_of_string value))
              (mkRecurrence None None [] [] [] []).

(** *** Structurally valid models *)

(** Modelled from the spec: the invariants of the data model.  A
    timestamp fits the fixed-width token; a rule has a positive interval,
    not both a count and an until, no filter declared empty, and filter
    values in the domain of their unit. *)
Definition valid_time_of_day (t : TimeOfDay) : Prop :=
  hour t < 24 /\ minute t < 60 /\ second t < 60.

Definition valid_timestamp (t : Timestamp) : Prop :=
  year t < 100 * 100 /\ 1 <= month t <= 12 /\ 1 <= day t <= 31
  /\ match time t with
     | Some tod => valid_time_of_day tod
     | None => True
     end.

(** An optional timestamp is valid when absent. *)
Definition valid_anchor (o : option Timestamp) : Prop :=
  match o with
  | Some t => valid_timestamp t
  | None => True
  end.

(** A filter that is present is not empty and its values satisfy [P]. *)
Definition valid_filter {A : Type} (P : A -> Prop) (o : option (list A))
  : Prop :=
  match o with
  | Some xs => xs <> [] /\ Forall P xs
  | None => True
  end.

(** The domain of a signed position: not zero, and within the bound of
    its unit (31 for a day of the month, 366 for a position in a set, 53
    for the ordinal of a weekday). *)
Definition nonzero_within (bound : Z) (z : Z) : Prop :=
  (- bound <= z <= bound)%Z /\ z <> 0%Z.

Definition valid_weekday_token (t : WeekdayToken) : Prop :=
  match ordinal t with
  | Some z => nonzero_within 53 z
  | None => True
  end.

(** The invariants of a rule. *)
Definition valid_rule (r : Rule) : Prop :=
  1 <= interval r
  /\ (count r = None \/ until r = None)
  /\ valid_anchor (until r)
  /\ valid_filter (fun z => 1 <= z <= 12)%Z (bymonth r)
  /\ valid_filter (nonzero_within 31) (bymonthday r)
  /\ valid_filter valid_weekday_token (byday r)
  /\ valid_filter (nonzero_within 366) (bysetpos r).

(** A model is structurally valid when its anchors, rules and dates
    are. *)
Definition valid_model (m : Recurrence) : Prop :=
  valid_anchor (dtstart m) /\ valid_anchor (dtend m)
  /\ Forall valid_rule (rrules m) /\ Forall valid_rule (exrules m)
  /\ Forall valid_timestamp (rdates m) /\ Forall valid_timestamp (exdates m).

(** *** Vocabulary of the proofs *)

(** Text made of decimal digits. *)
Definition all_digits (s : text) : Prop :=
  Forall (fun c => is_Some (digit_value c)) s.

(** The keys of the grammar are words of capital letters. *)
Definition keyword_like (key : string) : Prop := below 1 (chars key).

(** An optional part applied to the rule read so far. *)
Definition apply_opt {A : Type} (set : A -> Rule -> Rule) (o : option A)
    (r : Rule) : Rule :=
  match o with
  | Some a => set a r
  | None => r
  end.

(** An optional anchor line applied to the model read so far. *)
Definition set_anchor (set : option Timestamp -> Recurrence -> Recurrence)
    (o : option Timestamp) (m : Recurrence) : Recurrence :=
  match o with
  | Some t => set (Some t) m
  | None => m
  end.

(** ** The widget *)

(** What [render] is given as [value]: [None], a [Recurrence] object, or
    anything else, which is passed on as it is (the text of the field). *)
Inductive WidgetValue : Type :=
  | NoValue
  | RecurrenceValue (o : Recurrence)
  | TextValue (s : string).

(** What a method of the widget can raise: the [TypeError] of
    subscripting [None], or an exception as above. *)
Inductive Failure : Type :=
  | TypeError
  | Raised (e : Exception).

(** The result of [safestring.mark_safe]: the same text, marked. *)
Inductive SafeString : Type :=
  | mark_safe (s : string).

(** [forms.Media]: scripts in order, style sheets by medium. *)
Record Media : Type := mkMedia {
  js : list string;
  css : gmap string (list string)
}.

Module RecurrenceWidget.

Section Widget.

(** The keyword arguments of the constructor, kept for the script. *)
Variable Options : Type.

(** An instance: the options of the script, and the attributes the
    constructor hands to the constructor of [forms.Textarea]. *)
Record t : Type := mk {
  js_widget_options : Options;
  attrs : gmap string string
}.

(** [recurrence.serialize], [simplejson.dumps] and the [render] of
    [forms.Textarea], which are not part of the sources. *)
Variable recurrence_serialize : Recurrence -> string.
Variable dumps : Options -> Failure + string.
Variable textarea_render :
  t -> string -> string -> option (gmap string string) -> Failure + string.

(** [defaults.update(attrs)] writes the entries of [attrs] over those of
    [defaults]: the union that prefers [attrs]. *)
Definition __init__ (attrs : option (gmap string string)) (kwargs : Options)
  : t :=
  let defaults : gmap string string :=
    {[ "class"%string := "recurrence-widget"%string ]} in
  let defaults :=
    match attrs with
    | Some attrs => attrs ∪ defaults
    | None => defaults
    end in
  mk kwargs defaults.

(** The double quote, which the script's first literal holds twice. *)
Definition quote : string := String (ascii_of_nat 34) EmptyString.

(** The three adjacent literals of [widget_init_js], with the two [%s]
    filled by the identifier and the options. *)
Definition widget_init_js (id options : string) : string :=
  ("<script type=" +:+ quote +:+ "text/javascript" +:+ quote +:+ ">"
   +:+ "new recurrence.widget.Widget('" +:+ id +:+ "', " +:+ options +:+ ");"
   +:+ "</script>")%string.

Definition render (self : t) (name : string) (value : WidgetValue)
    (attrs : option (gmap string string)) : Failure + SafeString :=
  let value :=
    match value with
    | NoValue => ""%string
    | RecurrenceValue o => recurrence_serialize o
    | TextValue s => s
    end in
  match attrs with
  | None => inl TypeError
  | Some a =>
      match a !! "id"%string with
      | None => inl (Raised (KeyError "id"))
      | Some id =>
          match dumps (js_widget_options self) with
          | inl e => inl e
          | inr options =>
              match textarea_render self name value attrs with
              | inl e => inl e
              | inr html =>
                  inr (mark_safe
                         (html +:+ String (ascii_of_nat 10) EmptyString
                          +:+ widget_init_js id options))
              end
          end
      end
  end.

(** [settings] holds the attributes of [django.conf.settings] that are
    set; [getattr] with a default reads one. *)
Definition get_media (settings : gmap string string) : Media :=
  let media_prefix :=
    default "/"%string (settings !! "RECURRENCE_MEDIA_PREFIX"%string) in
  mkMedia
    [ (media_prefix +:+ "js/recurrence.js")%string;
      (media_prefix +:+ "js/widget.js")%string ]
    {[ "all"%string := [ (media_prefix +:+ "css/recurrence.css")%string ] ]}.

End Widget.

End RecurrenceWidget.

(** ** More concrete inputs *)

(** A parser that knows two texts. *)
Definition parsed_or (text1 : string) (o1 o2 : Recurrence)
  : string -> Outcome Recurrence :=
  fun value => if bool_decide (value = text1) then Return o1 else Return o2.

(** Fields and models of the runs below. *)
Definition one_weekly : Recurrence := mkRecurrence None None [weekly] [] [] [].
Definition one_daily : Recurrence := mkRecurrence None None [daily] [] [] [].
Definition nothing : Recurrence := mkRecurrence None None [] [] [] [].

Definition negative_rdates : RecurrenceField :=
  __init__ charfield_error_messages None true true
    None None (Some (-1)%Z) None None.

Definition own_template : RecurrenceField :=
  __init__ charfield_error_messages None true true
    (Some 0%Z) None None None
    (Some {[ "max_rrules_exceeded"%string := "Too many."%string ]}).

(** The store of a caller that holds one object already. *)
Definition callers_store : gmap positive Recurrence := {[ 1%positive := busy ]}.

(** A parser that refuses every text. *)
Definition refusing : string -> Outcome Recurrence :=
  fun _ => Raise (FormatError 1 "unknown directive").

Local Open Scope Z_scope.

(** * Proofs *)

(** ** Running the monad *)

Lemma run_bind {A B : Type} (c : Py A) (k : A -> Py B) (h : store) :
  (c ≫= k) h =
  match c h with
  | (Return a, h') => k a h'
  | (Raise e, h') => (Raise e, h')
  end.
Proof. reflexivity. Qed.

Lemma run_getitem_raise {A : Type} (d : gmap string string) (key : string)
    (k : string -> Exception) (h : store) :
  (getitem d key ≫= fun v => raise (A := A) (k v)) h
  = (Raise (match d !! key with Some v => k v | None => KeyError key end), h).
Proof.
  unfold getitem. rewrite run_bind. destruct (d !! key); reflexivity.
Qed.

Lemma run_get {A : Type} (field : Recurrence -> A) (l : loc) (o : Recurrence)
    (h : store) :
  h !! l = Some o -> get field l h = (Return (field o), h).
Proof.
  intros Hl. unfold get. by rewrite (lookup_total_correct h l o Hl).
Qed.

(** One limit block of [clean], on a store that holds [o] at [l]. *)
Lemma run_limit_block {X : Type} (d : gmap string string) (key : string)
    (limit : option Z) (field : Recurrence -> list X)
    (l : loc) (o : Recurrence) (h : store) :
  h !! l = Some o ->
  match limit with
  | Some max =>
      get field l ≫= fun xs =>
      when (bool_decide (Z.of_nat (length xs) > max))
        (getitem d key ≫= fun template =>
         raise (ValidationError (Interpolated template max)))
  | None => mret ()
  end h
  = (match limit with
     | Some max =>
         if bool_decide (Z.of_nat (length (field o)) > max)
         then Raise (match d !! key with
                     | Some template =>
                         ValidationError (Interpolated template max)
                     | None => KeyError key
                     end)
         else Return ()
     | None => Return ()
     end, h).
Proof.
  intros Hl. destruct limit as [max|]; [|reflexivity].
  rewrite run_bind, (run_get _ _ _ _ Hl). unfold when.
  destruct (bool_decide _); [|reflexivity].
  apply (run_getitem_raise d key (fun t => ValidationError (Interpolated t max))).
Qed.

(** A frequency loop of [clean]: it raises when some rule of the list
    is disallowed, and leaves the store alone. *)
Lemma run_frequency_loop (self : RecurrenceField) (xs : list Rule)
    (h : store) :
  for_ xs (fun rule =>
    when (bool_decide (freq rule ∉ frequencies self))
      (getitem (error_messages self) "invalid_frequency" ≫= fun message =>
       raise (ValidationError (Plain message)))) h
  = (match filter (disallowed self) xs with
     | [] => Return ()
     | _ :: _ => Raise (frequency_failure self)
     end, h).
Proof.
  induction xs as [|r xs IH]; [reflexivity|].
  cbn [for_]. rewrite run_bind. rewrite filter_cons. unfold when.
  destruct (decide (disallowed self r)) as [Hd|Hd].
  - rewrite (bool_decide_eq_true_2 _ Hd).
    by rewrite (run_getitem_raise _ _ (fun m => ValidationError (Plain m))).
  - rewrite (bool_decide_eq_false_2 _ Hd). exact IH.
Qed.

(** The two conditional clears on the object at [l]. *)
Lemma run_clear_dtstart (accept : bool) (l : loc) (o : Recurrence)
    (h : store) :
  when (negb accept) (set_dtstart l None) (<[l := o]> h)
  = (Return (), <[l := if accept then o else with_dtstart None o]> h).
Proof.
  destruct accept; [reflexivity|].
  cbn [negb when]. unfold set_dtstart. by rewrite alter_insert_eq.
Qed.

Lemma run_clear_dtend (accept : bool) (l : loc) (o : Recurrence)
    (h : store) :
  when (negb accept) (set_dtend l None) (<[l := o]> h)
  = (Return (), <[l := if accept then o else with_dtend None o]> h).
Proof.
  destruct accept; [reflexivity|].
  cbn [negb when]. unfold set_dtend. by rewrite alter_insert_eq.
Qed.

(** The clears touch the anchors only, so the checks see the
    collections of the parsed object. *)
Lemma size_of_cleared (self : RecurrenceField) (c : Collection)
    (o : Recurrence) :
  size_of c (cleared self o) = size_of c o.
Proof.
  unfold cleared. by destruct (accept_dtstart self), (accept_dtend self), c.
Qed.

Lemma rrules_cleared (self : RecurrenceField) (o : Recurrence) :
  rrules (cleared self o) = rrules o.
Proof.
  unfold cleared. by destruct (accept_dtstart self), (accept_dtend self).
Qed.

Lemma exrules_cleared (self : RecurrenceField) (o : Recurrence) :
  exrules (cleared self o) = exrules o.
Proof.
  unfold cleared. by destruct (accept_dtstart self), (accept_dtend self).
Qed.

Lemma violations_cleared (self : RecurrenceField) (o : Recurrence) :
  violations self (cleared self o) = violations self o.
Proof.
  unfold violations, limit_violation, collections. cbn [omap list_omap].
  by rewrite !size_of_cleared, rrules_cleared, exrules_cleared.
Qed.

Section Run.

Variable parser : string -> Outcome Recurrence.

(** A run of [clean] on a text that does not parse raises the parser's
    exception and leaves the store as it was. *)
Lemma clean_parse_error (self : RecurrenceField) (value : string)
    (e : Exception) (h : store) :
  parser value = Raise e -> clean parser self value h = (Raise e, h).
Proof.
  intros Hp. unfold clean, deserialize. rewrite run_bind, Hp. reflexivity.
Qed.

(** A run of [clean] on a text that parses to [o]: the new object is
    stored with the clears applied, whatever the checks then say, and
    the outcome is the first violation, if there is one. *)
Lemma clean_run (self : RecurrenceField) (value : string) (o : Recurrence)
    (h : store) :
  parser value = Return o ->
  clean parser self value h
  = (verdict self o (fresh (dom h)),
     <[fresh (dom h) := cleared self o]> h).
Proof.
  intros Hp. unfold clean, deserialize. rewrite run_bind, Hp.
  unfold new. cbv zeta. set (l := fresh (dom h)).
  rewrite run_bind, run_clear_dtstart.
  rewrite run_bind, run_clear_dtend.
  fold (cleared self o).
  assert (Hl : <[l := cleared self o]> h !! l = Some (cleared self o))
    by apply lookup_insert_eq.
  unfold verdict. rewrite <- (violations_cleared self o).
  unfold violations, collections. cbn [omap list_omap].
  unfold limit_violation. cbn [policy_max size_of limit_key limit_failure].
  set (o' := cleared self o) in *. set (h' := <[l := o']> h) in *.
  rewrite run_bind, (run_limit_block _ _ _ rrules l o' h' Hl).
  rewrite run_bind, (run_limit_block _ _ _ exrules l o' h' Hl).
  rewrite run_bind, (run_limit_block _ _ _ rdates l o' h' Hl).
  rewrite run_bind, (run_limit_block _ _ _ exdates l o' h' Hl).
  rewrite run_bind, (run_get rrules l o' h' Hl).
  rewrite run_bind, run_frequency_loop.
  rewrite run_bind, (run_get exrules l o' h' Hl).
  rewrite run_bind, run_frequency_loop.
  rewrite filter_app, fmap_app.
  destruct (max_rrules self) as [n1|];
    [destruct (bool_decide (Z.of_nat (length (rrules o')) > n1));
       [reflexivity|]|];
  (destruct (max_exrules self) as [n2|];
    [destruct (bool_decide (Z.of_nat (length (exrules o')) > n2));
       [reflexivity|]|]);
  (destruct (max_rdates self) as [n3|];
    [destruct (bool_decide (Z.of_nat (length (rdates o')) > n3));
       [reflexivity|]|]);
  (destruct (max_exdates self) as [n4|];
    [destruct (bool_decide (Z.of_nat (length (exdates o')) > n4));
       [reflexivity|]|]);
  cbn [app];
  (destruct (filter (disallowed self) (rrules o')); [|reflexivity]);
  (destruct (filter (disallowed self) (exrules o')); reflexivity).
Qed.

End Run.

(** ** Facts about the violations *)

Lemma verdict_raise (self : RecurrenceField) (o : Recurrence) (l : loc)
    (e : Exception) :
  verdict self o l = Raise e <-> head (violations self o) = Some e.
Proof.
  unfold verdict. destruct (violations self o); cbn; split; congruence.
Qed.

Lemma verdict_return (self : RecurrenceField) (o : Recurrence) (l l' : loc) :
  verdict self o l = Return l' <-> violations self o = [] /\ l' = l.
Proof.
  unfold verdict. destruct (violations self o); cbn; split;
    intros; destruct_and?; try split; congruence.
Qed.

Lemma limit_violation_Some (self : RecurrenceField) (o : Recurrence)
    (c : Collection) (e : Exception) :
  limit_violation self o c = Some e <->
  exists max, policy_max self c = Some max
              /\ Z.of_nat (size_of c o) > max
              /\ e = limit_failure self c max.
Proof.
  unfold limit_violation. destruct (policy_max self c) as [max|].
  - case_bool_decide; split.
    + intros [= <-]. eauto.
    + intros (? & [= <-] & _ & ->). reflexivity.
    + discriminate.
    + intros (? & [= <-] & ? & _). contradiction.
  - split; [discriminate|]. intros (? & ? & _). discriminate.
Qed.

Lemma limit_violation_None (self : RecurrenceField) (o : Recurrence)
    (c : Collection) :
  limit_violation self o c = None <-> ~ exceeds self o c.
Proof.
  unfold limit_violation, exceeds. destruct (policy_max self c) as [max|].
  - case_bool_decide; split; done.
  - tauto.
Qed.

(** The first violation when a collection exceeds its limit and none
    before it does. *)
Lemma first_violation_limit (self : RecurrenceField) (o : Recurrence)
    (c : Collection) (max : Z) :
  policy_max self c = Some max ->
  Z.of_nat (size_of c o) > max ->
  (forall c', c' ∈ before c -> ~ exceeds self o c') ->
  head (violations self o) = Some (limit_failure self c max).
Proof.
  intros Hmax Hsize Hbefore.
  assert (Hc : limit_violation self o c = Some (limit_failure self c max)).
  { apply limit_violation_Some. eauto. }
  assert (Hb : forall c', c' ∈ before c -> limit_violation self o c' = None).
  { intros c' Hc'. apply limit_violation_None. auto. }
  unfold violations, collections. cbn [omap list_omap].
  destruct c; cbn [before] in Hb;
    rewrite ?(Hb Rrules), ?(Hb Exrules), ?(Hb Rdates), Hc
      by set_solver; reflexivity.
Qed.

(** A member of [before c] is one of at most three collections, each
    with its fact at hand. *)
Ltac before_cases H :=
  cbn [before] in H;
  repeat (apply elem_of_cons in H as [-> | H]; [assumption|]);
  by apply elem_of_nil in H.

(** Conversely the first violation is the limit failure of the first
    collection that exceeds its limit, or the frequency failure when no
    collection does and some rule is disallowed. *)
Lemma head_violations_inv (self : RecurrenceField) (o : Recurrence)
    (e : Exception) :
  head (violations self o) = Some e ->
  (exists c max, policy_max self c = Some max
                 /\ Z.of_nat (size_of c o) > max
                 /\ (forall c', c' ∈ before c -> ~ exceeds self o c')
                 /\ e = limit_failure self c max)
  \/ ((forall c, ~ exceeds self o c)
      /\ (exists r, r ∈ rrules o ++ exrules o /\ disallowed self r)
      /\ e = frequency_failure self).
Proof.
  intros Hhead. unfold violations, collections in Hhead.
  cbn [omap list_omap] in Hhead.
  destruct (limit_violation self o Rrules) as [e1|] eqn:H1.
  { injection Hhead as <-.
    apply limit_violation_Some in H1 as (max & ? & ? & ->).
    left. exists Rrules, max. repeat split; auto.
    intros c' Hc'. before_cases Hc'. }
  apply limit_violation_None in H1.
  destruct (limit_violation self o Exrules) as [e2|] eqn:H2.
  { injection Hhead as <-.
    apply limit_violation_Some in H2 as (max & ? & ? & ->).
    left. exists Exrules, max. repeat split; auto.
    intros c' Hc'. before_cases Hc'. }
  apply limit_violation_None in H2.
  destruct (limit_violation self o Rdates) as [e3|] eqn:H3.
  { injection Hhead as <-.
    apply limit_violation_Some in H3 as (max & ? & ? & ->).
    left. exists Rdates, max. repeat split; auto.
    intros c' Hc'. before_cases Hc'. }
  apply limit_violation_None in H3.
  destruct (limit_violation self o Exdates) as [e4|] eqn:H4.
  { injection Hhead as <-.
    apply limit_violation_Some in H4 as (max & ? & ? & ->).
    left. exists Exdates, max. repeat split; auto.
    intros c' Hc'. before_cases Hc'. }
  apply limit_violation_None in H4.
  right. split; [by intros []|].
  cbn [app] in Hhead.
  destruct (filter (disallowed self) (rrules o ++ exrules o))
    as [|r rs] eqn:Hf; [discriminate|].
  injection Hhead as <-. split; [|reflexivity].
  exists r. assert (Hr : r ∈ filter (disallowed self) (rrules o ++ exrules o))
    by (rewrite Hf; left).
  apply list_elem_of_filter in Hr. tauto.
Qed.

(** With no violating collection, a disallowed rule makes the frequency
    failure the first violation. *)
Lemma first_violation_frequency (self : RecurrenceField) (o : Recurrence)
    (r : Rule) :
  (forall c, ~ exceeds self o c) ->
  r ∈ rrules o ++ exrules o ->
  disallowed self r ->
  head (violations self o) = Some (frequency_failure self).
Proof.
  intros Hnone Hr Hd. unfold violations, collections.
  cbn [omap list_omap].
  rewrite !(proj2 (limit_violation_None _ _ _)) by auto. cbn [app].
  assert (Hin : r ∈ filter (disallowed self) (rrules o ++ exrules o))
    by (apply list_elem_of_filter; auto).
  destruct (filter (disallowed self) (rrules o ++ exrules o));
    [by apply not_elem_of_nil in Hin|reflexivity].
Qed.

(** *** Fields built without an [error_messages] argument *)

Lemma limit_template_lookup (c : Collection) :
  default_error_messages !! limit_key c = Some (limit_template c).
Proof. by destruct c. Qed.

Lemma limit_template_inj (c c' : Collection) :
  limit_template c = limit_template c' -> c = c'.
Proof. destruct c, c'; first [reflexivity|discriminate]. Qed.

Lemma build_error_messages_default (inherited : gmap string string)
    (key : string) (v : string) :
  default_error_messages !! key = Some v ->
  build_error_messages inherited None !! key = Some v.
Proof.
  intros Hk. unfold build_error_messages. cbn [default].
  rewrite (left_id_L ∅ (∪)). by apply lookup_union_Some_l.
Qed.

Lemma limit_failure_default (inherited : gmap string string)
    (fs : option (list Frequency)) (a b : bool) (m1 m2 m3 m4 : option Z)
    (c : Collection) (max : Z) :
  limit_failure (__init__ inherited fs a b m1 m2 m3 m4 None) c max
  = ValidationError (Interpolated (limit_template c) max).
Proof.
  unfold limit_failure. cbn [__init__ error_messages].
  by rewrite (build_error_messages_default _ _ _ (limit_template_lookup c)).
Qed.


Lemma LimitExceeded_inj (c c' : Collection) (limit limit' : Z) :
  LimitExceeded c limit = LimitExceeded c' limit' -> c = c' /\ limit = limit'.
Proof.
  intros [= Ht Hl]. split; [by apply limit_template_inj|assumption].
Qed.

Lemma frequency_failure_not_limit (self self' : RecurrenceField)
    (c : Collection) (max : Z) :
  frequency_failure self <> limit_failure self' c max.
Proof.
  unfold frequency_failure, limit_failure.
  destruct (error_messages self !! _), (error_messages self' !! _);
    try discriminate.
  by destruct c.
Qed.

(** A collection over its limit makes the run fail with the limit
    failure of some collection. *)
Lemma exceeds_head (self : RecurrenceField) (o : Recurrence)
    (c : Collection) :
  exceeds self o c ->
  exists c' max, policy_max self c' = Some max
                 /\ head (violations self o) = Some (limit_failure self c' max).
Proof.
  intros Hex.
  destruct (head (violations self o)) as [e|] eqn:Hhead.
  - destruct (head_violations_inv _ _ _ Hhead)
      as [(c' & max & Hmax & _ & _ & ->)|(Hnone & _)].
    + eauto.
    + by destruct (Hnone c).
  - apply head_None in Hhead. unfold violations in Hhead.
    apply app_eq_nil in Hhead as [Hnil _].
    destruct (limit_violation self o c) as [e|] eqn:Hc.
    + assert (He : e ∈ omap (limit_violation self o) collections).
      { apply list_elem_of_omap. exists c. split; [|assumption].
        unfold collections. destruct c; set_solver. }
      rewrite Hnil in He. by apply elem_of_nil in He.
    + by apply limit_violation_None in Hc.
Qed.

(** The default tuple of frequencies holds every frequency. *)
Lemma default_frequencies_all (f : Frequency) :
  f ∈ [YEARLY; MONTHLY; WEEKLY; DAILY; HOURLY; MINUTELY; SECONDLY].
Proof. destruct f; repeat first [left|right]. Qed.

(** The object [clean] stores is the parsed one with the clears. *)
Lemma anchors_cleared_cleared (self : RecurrenceField) (o : Recurrence) :
  anchors_cleared self o (cleared self o).
Proof.
  unfold anchors_cleared, cleared.
  by destruct (accept_dtstart self), (accept_dtend self).
Qed.

(** Two collections are the same, or one is checked before the other. *)
Lemma collection_order (c c' : Collection) :
  c' = c \/ c' ∈ before c \/ c ∈ before c'.
Proof.
  destruct c, c'; cbn [before];
    first [by left | right; left; set_solver | right; right; set_solver].
Qed.

(** When a collection is over its limit, the first violation is the limit
    failure of the first collection over its limit, which is that
    collection or one checked before it. *)
Lemma first_exceeding (self : RecurrenceField) (o : Recurrence)
    (c : Collection) :
  exceeds self o c ->
  exists c' max,
    (c' = c \/ c' ∈ before c)
    /\ policy_max self c' = Some max
    /\ Z.of_nat (size_of c' o) > max
    /\ (forall c'', c'' ∈ before c' -> ~ exceeds self o c'')
    /\ head (violations self o) = Some (limit_failure self c' max).
Proof.
  intros Hc.
  destruct (exceeds_head self o c Hc) as (c0 & max0 & _ & Hhead).
  destruct (head_violations_inv _ _ _ Hhead)
    as [(c' & max & Hmax & Hsize & Hbefore & He)|(Hnone & _)];
    [|by destruct (Hnone c)].
  exists c', max. repeat split; try assumption; [|by rewrite Hhead, He].
  destruct (collection_order c c') as [?|[?|Hlater]]; [by left|by right|].
  by destruct (Hbefore c Hlater).
Qed.

(** The object violates nothing exactly when no collection is over its
    limit and every rule has an allowed frequency. *)
Lemma violations_nil (self : RecurrenceField) (o : Recurrence) :
  violations self o = [] <->
  (forall c, ~ exceeds self o c)
  /\ (forall r, r ∈ rrules o ++ exrules o -> freq r ∈ frequencies self).
Proof.
  split.
  - intros Hnil.
    assert (Hnone : forall c, ~ exceeds self o c).
    { intros c Hc.
      destruct (exceeds_head self o c Hc) as (c' & max & _ & Hhead).
      by rewrite Hnil in Hhead. }
    split; [exact Hnone|]. intros r Hr.
    destruct (decide (freq r ∈ frequencies self)) as [|Hd]; [done|].
    pose proof (first_violation_frequency self o r Hnone Hr Hd) as Hhead.
    by rewrite Hnil in Hhead.
  - intros [Hlimits Hfreqs].
    destruct (head (violations self o)) as [e|] eqn:Hhead;
      [|by apply head_None].
    destruct (head_violations_inv _ _ _ Hhead)
      as [(c & max & Hmax & Hsize & _)|(_ & (r & Hr & Hd) & _)].
    + destruct (Hlimits c). unfold exceeds. by rewrite Hmax.
    + destruct Hd. auto.
Qed.

(** ** The claims about the validation *)

Section Validation.

Variable parser : string -> Outcome Recurrence.
Variable inherited : gmap string string.

(** C1, as amended.  For a field built without an [error_messages]
    argument and a collection [c] whose max is set, a run of [clean] on a
    text that parses to [o] fails with [LimitExceeded] for [c] if and only
    if the size of [c] strictly exceeds the max and no collection checked
    before [c] exceeds its own; the error then carries the max of [c].  A
    size equal to the max does not fail for [c]. *)
Theorem limit_exceeded_iff_first_to_exceed
    (fs : option (list Frequency)) (a b : bool) (m1 m2 m3 m4 : option Z)
    (value : string) (o : Recurrence) (h : store)
    (c : Collection) (max : Z) :
  let self := __init__ inherited fs a b m1 m2 m3 m4 None in
  parser value = Return o ->
  policy_max self c = Some max ->
  ((exists limit,
       (clean parser self value h).1 = Raise (LimitExceeded c limit))
   <-> Z.of_nat (size_of c o) > max
       /\ forall c', c' ∈ before c -> ~ exceeds self o c')
  /\ (Z.of_nat (size_of c o) > max ->
      (forall c', c' ∈ before c -> ~ exceeds self o c') ->
      (clean parser self value h).1 = Raise (LimitExceeded c max)).
Proof.
  intros self Hp Hmax. rewrite (clean_run parser self value o h Hp).
  cbn [fst].
  assert (Hsuff : Z.of_nat (size_of c o) > max ->
                  (forall c', c' ∈ before c -> ~ exceeds self o c') ->
                  verdict self o (fresh (dom h)) = Raise (LimitExceeded c max)).
  { intros Hsize Hbefore. apply verdict_raise.
    rewrite (first_violation_limit self o c max Hmax Hsize Hbefore).
    unfold self. by rewrite limit_failure_default. }
  split; [split|exact Hsuff].
  - intros [limit Hraise]. apply verdict_raise in Hraise.
    destruct (head_violations_inv _ _ _ Hraise)
      as [(c0 & max0 & Hmax0 & Hsize0 & Hbefore0 & He)|(_ & _ & He)].
    + unfold self in He. rewrite limit_failure_default in He.
      apply LimitExceeded_inj in He as [-> _].
      assert (max0 = max) as -> by congruence. auto.
    + exfalso. apply (frequency_failure_not_limit self self c limit).
      rewrite <- He. unfold self. by rewrite limit_failure_default.
  - intros [Hsize Hbefore]. exists max. auto.
Qed.

(** C2.  The steps of [clean] come in a fixed order.  For a field built
    without an [error_messages] argument and a text that parses to [o], the
    new object holds the two clears whatever the outcome (the clears come
    first); the run raises the first of the violations, listed in the
    order rrules, exrules, rdates, exdates, then each rule of rrules, then
    each rule of exrules, and returns the object when there is none.  So
    a collection over its limit wins, with its [LimitExceeded] error, over
    every collection checked after it and over every disallowed frequency,
    and a disallowed frequency is reported only when no collection is over
    its limit. *)
Theorem clean_reports_first_violation
    (fs : option (list Frequency)) (a b : bool) (m1 m2 m3 m4 : option Z)
    (value : string) (o : Recurrence) (h : store) :
  let self := __init__ inherited fs a b m1 m2 m3 m4 None in
  parser value = Return o ->
  (exists o',
      (clean parser self value h).2 !! fresh (dom h) = Some o'
      /\ anchors_cleared self o o')
  /\ (forall e rest, violations self o = e :: rest ->
        (clean parser self value h).1 = Raise e)
  /\ (violations self o = [] ->
        (clean parser self value h).1 = Return (fresh (dom h)))
  /\ (forall c max,
        policy_max self c = Some max ->
        Z.of_nat (size_of c o) > max ->
        (forall c', c' ∈ before c -> ~ exceeds self o c') ->
        (clean parser self value h).1 = Raise (LimitExceeded c max))
  /\ (forall r,
        (forall c, ~ exceeds self o c) ->
        r ∈ rrules o ++ exrules o ->
        freq r ∉ frequencies self ->
        (clean parser self value h).1 = Raise (frequency_failure self)).
Proof.
  intros self Hp. rewrite (clean_run parser self value o h Hp).
  cbn [fst snd]. split.
  { exists (cleared self o).
    split; [apply lookup_insert_eq|apply anchors_cleared_cleared]. }
  unfold verdict. repeat split.
  - by intros e rest ->.
  - by intros ->.
  - intros c max Hmax Hsize Hbefore.
    pose proof (first_violation_limit self o c max Hmax Hsize Hbefore) as Hh.
    unfold self in Hh at 2. rewrite limit_failure_default in Hh.
    destruct (violations self o); [discriminate|]. by injection Hh as ->.
  - intros r Hnone Hr Hd.
    pose proof (first_violation_frequency self o r Hnone Hr Hd) as Hh.
    destruct (violations self o); [discriminate|]. by injection Hh as ->.
Qed.

(** C3.  When [clean] returns, the returned object has no [dtstart] if
    the field does not accept one and the parsed [dtstart] otherwise, the
    same for [dtend], and the four collections of the parsed object. *)
Theorem clean_clears_anchors_only
    (self : RecurrenceField) (value : string) (o : Recurrence) (h : store)
    (l : loc) :
  parser value = Return o ->
  (clean parser self value h).1 = Return l ->
  exists o',
    (clean parser self value h).2 !! l = Some o'
    /\ dtstart o' = (if accept_dtstart self then dtstart o else None)
    /\ dtend o' = (if accept_dtend self then dtend o else None)
    /\ rrules o' = rrules o
    /\ exrules o' = exrules o
    /\ rdates o' = rdates o
    /\ exdates o' = exdates o.
Proof.
  intros Hp. rewrite (clean_run parser self value o h Hp). cbn [fst snd].
  intros [_ ->]%verdict_return. exists (cleared self o).
  split; [apply lookup_insert_eq|].
  unfold cleared. by destruct (accept_dtstart self), (accept_dtend self).
Qed.

(** C4, as amended.  When a rule of rrules or exrules has a frequency
    outside the field's frequencies and no collection is over its limit,
    [clean] fails and returns no object; when the field's error messages
    hold the key [invalid_frequency], the failure is the [ValidationError]
    with that message. *)
Theorem disallowed_frequency_fails
    (self : RecurrenceField) (value : string) (o : Recurrence) (h : store)
    (r : Rule) :
  parser value = Return o ->
  r ∈ rrules o ++ exrules o ->
  freq r ∉ frequencies self ->
  (forall c, ~ exceeds self o c) ->
  (exists e, (clean parser self value h).1 = Raise e)
  /\ (forall message,
        error_messages self !! "invalid_frequency"%string = Some message ->
        (clean parser self value h).1
        = Raise (ValidationError (Plain message))).
Proof.
  intros Hp Hr Hd Hnone. rewrite (clean_run parser self value o h Hp).
  cbn [fst].
  assert (Hv : verdict self o (fresh (dom h)) = Raise (frequency_failure self)).
  { apply verdict_raise. by apply (first_violation_frequency self o r). }
  split; [eauto|]. intros message Hm. rewrite Hv.
  unfold frequency_failure. by rewrite Hm.
Qed.

(** C5.  A run of [clean] is atomic for its caller.  Every object of
    the caller's store is left as it was.  When the run returns, it
    returns a reference the caller's store did not use, the text parsed to
    an object that violates nothing, and the store is the caller's with
    one more object at that reference: the parsed one with an anchor absent
    where the field does not accept it and everything else as parsed.
    When the run raises, the caller receives the exception alone: either
    the text did not parse and the store is the caller's, unchanged, or
    the parsed object violates a constraint and the store is the caller's
    with the cleared object at a reference the caller's store did not use
    and the run does not hand out. *)
Theorem clean_atomic (self : RecurrenceField) (value : string) (h : store) :
  h ⊆ (clean parser self value h).2
  /\ match (clean parser self value h).1 with
     | Return l =>
         l = fresh (dom h)
         /\ h !! l = None
         /\ exists o o',
              parser value = Return o
              /\ (forall c, ~ exceeds self o c)
              /\ (forall r, r ∈ rrules o ++ exrules o ->
                            freq r ∈ frequencies self)
              /\ (clean parser self value h).2 = <[l := o']> h
              /\ anchors_cleared self o o'
     | Raise e =>
         (parser value = Raise e /\ (clean parser self value h).2 = h)
         \/ exists o o',
              parser value = Return o
              /\ ~ ((forall c, ~ exceeds self o c)
                    /\ (forall r, r ∈ rrules o ++ exrules o ->
                                  freq r ∈ frequencies self))
              /\ h !! fresh (dom h) = None
              /\ (clean parser self value h).2 = <[fresh (dom h) := o']> h
              /\ anchors_cleared self o o'
     end.
Proof.
  assert (Hfresh : h !! fresh (dom h) = None).
  { apply not_elem_of_dom. apply is_fresh. }
  destruct (parser value) as [o|e] eqn:Hp.
  - rewrite (clean_run parser self value o h Hp). cbn [fst snd].
    split; [by apply insert_subseteq|].
    destruct (verdict self o (fresh (dom h))) as [l|e] eqn:Hv.
    + apply verdict_return in Hv as [Hnil ->].
      apply violations_nil in Hnil as [Hnone Hallowed].
      repeat split; [assumption|]. exists o, (cleared self o).
      repeat split; try assumption; apply anchors_cleared_cleared.
    + right. exists o, (cleared self o).
      split; [reflexivity|]. split.
      * intros Hok%violations_nil. unfold verdict in Hv.
        by rewrite Hok in Hv.
      * repeat split; try assumption; apply anchors_cleared_cleared.
  - rewrite (clean_parse_error parser self value e h Hp). cbn [fst snd].
    split; [reflexivity|]. by left.
Qed.

(** C6.  A max of [None] means unlimited: a field built without an
    [error_messages] argument never fails with [LimitExceeded] for a
    collection whose max is [None], whatever the collection's size. *)
Theorem unlimited_never_limit_exceeded
    (fs : option (list Frequency)) (a b : bool) (m1 m2 m3 m4 : option Z)
    (value : string) (o : Recurrence) (h : store) (c : Collection) :
  let self := __init__ inherited fs a b m1 m2 m3 m4 None in
  parser value = Return o ->
  policy_max self c = None ->
  forall limit, (clean parser self value h).1 <> Raise (LimitExceeded c limit).
Proof.
  intros self Hp Hmax limit. rewrite (clean_run parser self value o h Hp).
  cbn [fst]. intros Hraise%verdict_raise.
  destruct (head_violations_inv _ _ _ Hraise)
    as [(c0 & max0 & Hmax0 & _ & _ & He)|(_ & _ & He)].
  - unfold self in He. rewrite limit_failure_default in He.
    apply LimitExceeded_inj in He as [-> _]. congruence.
  - apply (frequency_failure_not_limit self self c limit).
    rewrite <- He. unfold self. by rewrite limit_failure_default.
Qed.

(** C7, as amended.  A max of [0] disables the collection: for a field
    built without an [error_messages] argument, every object with at least
    one element in a collection whose max is [0] fails with a
    [LimitExceeded] error.  The error is the one of the first collection
    over its max: that collection itself, with limit [0], when no
    collection checked before it exceeds its own max (always so for
    rrules), and otherwise the first such earlier collection, with its
    own max. *)
Theorem zero_max_disables
    (fs : option (list Frequency)) (a b : bool) (m1 m2 m3 m4 : option Z)
    (value : string) (o : Recurrence) (h : store) (c : Collection) :
  let self := __init__ inherited fs a b m1 m2 m3 m4 None in
  parser value = Return o ->
  policy_max self c = Some 0 ->
  (0 < size_of c o)%nat ->
  (exists c' limit,
      (c' = c /\ limit = 0 \/ c' ∈ before c)
      /\ policy_max self c' = Some limit
      /\ Z.of_nat (size_of c' o) > limit
      /\ (forall c'', c'' ∈ before c' -> ~ exceeds self o c'')
      /\ (clean parser self value h).1 = Raise (LimitExceeded c' limit))
  /\ ((forall c', c' ∈ before c -> ~ exceeds self o c') ->
      (clean parser self value h).1 = Raise (LimitExceeded c 0))
  /\ ((exists c', c' ∈ before c /\ exceeds self o c') ->
      exists c' limit,
        c' ∈ before c
        /\ policy_max self c' = Some limit
        /\ Z.of_nat (size_of c' o) > limit
        /\ (forall c'', c'' ∈ before c' -> ~ exceeds self o c'')
        /\ (clean parser self value h).1 = Raise (LimitExceeded c' limit)).
Proof.
  intros self Hp Hmax Hsize. rewrite (clean_run parser self value o h Hp).
  cbn [fst].
  assert (Hgt : Z.of_nat (size_of c o) > 0) by lia.
  assert (Hc : exceeds self o c) by (unfold exceeds; by rewrite Hmax).
  destruct (first_exceeding self o c Hc)
    as (c' & limit & Hwhere & Hmax' & Hsize' & Hbefore' & Hhead).
  assert (Hraise : verdict self o (fresh (dom h))
                   = Raise (LimitExceeded c' limit)).
  { apply verdict_raise. rewrite Hhead. unfold self.
    by rewrite limit_failure_default. }
  split; [|split].
  - exists c', limit. repeat split; try assumption.
    destruct Hwhere as [->|Hin]; [left|by right].
    split; [reflexivity|congruence].
  - intros Hnone. destruct Hwhere as [->|Hin].
    + assert (limit = 0) as -> by congruence. exact Hraise.
    + destruct (Hnone c' Hin). unfold exceeds. by rewrite Hmax'.
  - intros (c1 & Hin1 & Hex1). destruct Hwhere as [->|Hin].
    + by destruct (Hbefore' c1 Hin1).
    + by exists c', limit.
Qed.

(** C8.  A field built without a [frequencies] argument, and without an
    [error_messages] argument, allows all seven frequencies: every rule
    has a frequency of the field, whatever it is; when no collection is
    over its limit [clean] returns; and when [clean] fails, it fails on a
    collection over its limit, with that collection's [LimitExceeded]
    error, and never on the message lookup of the frequency check. *)
Theorem default_frequencies_never_disallowed
    (a b : bool) (m1 m2 m3 m4 : option Z)
    (value : string) (o : Recurrence) (h : store) :
  let self := __init__ inherited None a b m1 m2 m3 m4 None in
  parser value = Return o ->
  (forall r : Rule, freq r ∈ frequencies self)
  /\ ((forall c, ~ exceeds self o c) ->
      (clean parser self value h).1 = Return (fresh (dom h)))
  /\ (forall e, (clean parser self value h).1 = Raise e ->
        exists c max, policy_max self c = Some max
                      /\ Z.of_nat (size_of c o) > max
                      /\ (forall c', c' ∈ before c -> ~ exceeds self o c')
                      /\ e = LimitExceeded c max)
  /\ (clean parser self value h).1 <> Raise (KeyError "invalid_frequency").
Proof.
  intros self Hp. rewrite (clean_run parser self value o h Hp). cbn [fst].
  assert (Hall : forall r : Rule, freq r ∈ frequencies self).
  { intros r. apply default_frequencies_all. }
  assert (Hlimit : forall e, verdict self o (fresh (dom h)) = Raise e ->
            exists c max, policy_max self c = Some max
                          /\ Z.of_nat (size_of c o) > max
                          /\ (forall c', c' ∈ before c ->
                                         ~ exceeds self o c')
                          /\ e = LimitExceeded c max).
  { intros e Hraise%verdict_raise.
    destruct (head_violations_inv _ _ _ Hraise)
      as [(c & max & Hmax & Hsize & Hbefore & He)|(_ & (r & _ & Hd) & _)].
    - exists c, max. repeat split; try assumption.
      rewrite He. unfold self. by rewrite limit_failure_default.
    - by destruct Hd. }
  repeat split; [exact Hall| |exact Hlimit|].
  - intros Hnone. apply verdict_return. split; [|reflexivity].
    apply violations_nil. split; [exact Hnone|]. intros r _. apply Hall.
  - intros (c & max & _ & _ & _ & He)%Hlimit. discriminate.
Qed.

(** C10, as amended.  The class declares its frequency message under
    the key [invalid_freqency] and [clean] looks up [invalid_frequency].
    For a field whose inherited and supplied messages do not hold
    [invalid_frequency], a run on an object with a rule of a frequency
    outside the field's frequencies, and with no collection over its limit,
    raises [KeyError] for that key, not a [ValidationError]. *)
Theorem misspelled_key_raises_KeyError
    (fs : option (list Frequency)) (a b : bool) (m1 m2 m3 m4 : option Z)
    (messages : option (gmap string string))
    (value : string) (o : Recurrence) (h : store) (r : Rule) :
  let self := __init__ inherited fs a b m1 m2 m3 m4 messages in
  inherited !! "invalid_frequency"%string = None ->
  default (∅ : gmap string string) messages !! "invalid_frequency"%string
  = None ->
  parser value = Return o ->
  r ∈ rrules o ++ exrules o ->
  freq r ∉ frequencies self ->
  (forall c, ~ exceeds self o c) ->
  default_error_messages !! "invalid_freqency"%string
  = Some "Invalid frequency."%string
  /\ default_error_messages !! "invalid_frequency"%string = None
  /\ (clean parser self value h).1 = Raise (KeyError "invalid_frequency").
Proof.
  intros self Hinh Hsup Hp Hr Hd Hnone.
  split; [reflexivity|]. split; [reflexivity|].
  rewrite (clean_run parser self value o h Hp). cbn [fst].
  apply verdict_raise.
  rewrite (first_violation_frequency self o r Hnone Hr Hd).
  unfold frequency_failure. unfold self at 1.
  cbn [__init__ error_messages]. unfold build_error_messages.
  assert (Hnone' :
    (default (∅ : gmap string string) messages
       ∪ (default_error_messages ∪ inherited))
      !! "invalid_frequency"%string = None).
  { rewrite !lookup_union_None. done. }
  by rewrite Hnone'.
Qed.

End Validation.

(** ** Concrete runs *)

(** C1 as stated fails for a collection checked after another that is
    over its limit: with [max_rrules = 0] and [max_exrules = 0], one rrule
    and one exrule, the size of exrules exceeds its max, yet the run fails
    with the error of rrules and not with [LimitExceeded] for exrules. *)
Lemma limit_exceeded_iff_counterexample :
  let self :=
    __init__ charfield_error_messages None true true
      (Some 0) (Some 0) None None None in
  let o := mkRecurrence None None [daily] [daily] [] [] in
  policy_max self Exrules = Some 0
  /\ Z.of_nat (size_of Exrules o) > 0
  /\ (clean (parsed o) self "" ∅).1
     = Raise (ValidationError
                (Interpolated "Max rules exceeded. The limit is %(limit)s" 0))
  /\ ~ exists limit,
        (clean (parsed o) self "" ∅).1 = Raise (LimitExceeded Exrules limit).
Proof.
  cbv zeta. split; [reflexivity|]. split; [reflexivity|].
  split; [by vm_compute|].
  intros [limit Hraise]. vm_compute in Hraise. discriminate.
Qed.

(** The example of C1: [max_rrules = 2] and three rrules. *)
Lemma limit_exceeded_iff_first_to_exceed_witness :
  (clean (parsed (mkRecurrence None None [daily; weekly; monthly] [] [] []))
     (__init__ charfield_error_messages None true true
        (Some 2) None None None None) "" ∅).1
  = Raise (LimitExceeded Rrules 2).
Proof.
  apply (limit_exceeded_iff_first_to_exceed
           (parsed (mkRecurrence None None [daily; weekly; monthly] [] [] []))
           charfield_error_messages None true true (Some 2) None None None
           "" _ ∅ Rrules 2 eq_refl eq_refl).
  - reflexivity.
  - intros c' Hc'. by apply elem_of_nil in Hc'.
Defined.

(** C2 on [crowded], which violates three constraints of
    [weekly_only]: the error is the one of rrules, the first in the
    order, and the object in the store has lost its [dtstart] although the
    run failed. *)
Lemma clean_reports_first_violation_witness :
  (exists o',
      (clean (parsed crowded) weekly_only "" ∅).2 !! 1%positive = Some o'
      /\ dtstart o' = None
      /\ dtend o' = None
      /\ rrules o' = [daily; monthly]
      /\ exrules o' = []
      /\ rdates o' = []
      /\ exdates o' = [new_year])
  /\ violations weekly_only crowded
     = [LimitExceeded Rrules 1; LimitExceeded Exdates 0;
        KeyError "invalid_frequency"; KeyError "invalid_frequency"]
  /\ (clean (parsed crowded) weekly_only "" ∅).1
     = Raise (LimitExceeded Rrules 1).
Proof.
  destruct (clean_reports_first_violation (parsed crowded)
              charfield_error_messages (Some [WEEKLY]) false true
              (Some 1) None None (Some 0) "" crowded ∅ eq_refl)
    as (Hstore & Hfirst & _).
  split; [exact Hstore|]. split; [by vm_compute|].
  apply (Hfirst _ [LimitExceeded Exdates 0;
                   KeyError "invalid_frequency";
                   KeyError "invalid_frequency"]).
  by vm_compute.
Defined.

(** C5 on a caller that holds [busy]: the run on [crowded] fails, the
    caller's object is as it was, and the object the run had cleared sits
    at a reference the run did not hand out. *)
Lemma clean_atomic_witness :
  (clean (parsed crowded) weekly_only "" callers_store).1
  = Raise (LimitExceeded Rrules 1)
  /\ callers_store ⊆ (clean (parsed crowded) weekly_only "" callers_store).2
  /\ (clean (parsed crowded) weekly_only "" callers_store).2 !! 1%positive
     = Some busy
  /\ exists o',
       (clean (parsed crowded) weekly_only "" callers_store).2
       = <[2%positive := o']> callers_store
       /\ dtstart o' = None
       /\ dtend o' = dtend crowded
       /\ rrules o' = rrules crowded
       /\ exrules o' = exrules crowded
       /\ rdates o' = rdates crowded
       /\ exdates o' = exdates crowded.
Proof.
  pose proof (clean_atomic (parsed crowded) weekly_only "" callers_store)
    as [Hframe Hout].
  assert (Hraise : (clean (parsed crowded) weekly_only "" callers_store).1
                   = Raise (LimitExceeded Rrules 1)) by by vm_compute.
  rewrite Hraise in Hout.
  split; [exact Hraise|]. split; [exact Hframe|].
  split; [by vm_compute|].
  destruct Hout as [[Hp _]|(o & o' & Hp & _ & _ & Hstore & Hclear)];
    [discriminate|].
  injection Hp as <-. exists o'. split; [exact Hstore|exact Hclear].
Defined.

(** C3 on a field that accepts no [dtstart]. *)
Lemma clean_clears_anchors_only_witness :
  exists o',
    (clean (parsed (mkRecurrence (Some new_year) (Some new_year)
                      [weekly] [] [new_year] []))
       (__init__ charfield_error_messages None false true
          None None None None None) "" ∅).2 !! 1%positive = Some o'
    /\ dtstart o' = None
    /\ dtend o' = Some new_year
    /\ rrules o' = [weekly]
    /\ exrules o' = []
    /\ rdates o' = [new_year]
    /\ exdates o' = [].
Proof.
  apply (clean_clears_anchors_only
           (parsed (mkRecurrence (Some new_year) (Some new_year)
                      [weekly] [] [new_year] []))
           (__init__ charfield_error_messages None false true
              None None None None None) "" _ ∅ 1%positive eq_refl).
  by vm_compute.
Defined.

(** C4 as stated fails when a collection is over its limit: the limit
    checks come first.  Here the field does hold a message under
    [invalid_frequency], the only rrule is monthly and the whitelist is
    weekly, and the run fails with the limit error of rrules. *)
Lemma disallowed_frequency_counterexample :
  let self :=
    __init__ charfield_error_messages (Some [WEEKLY]) true true
      (Some 0) None None None
      (Some {[ "invalid_frequency"%string := "Invalid frequency."%string ]}) in
  let o := mkRecurrence None None [monthly] [] [] [] in
  monthly ∈ rrules o
  /\ (freq monthly ∉ frequencies self)
  /\ (clean (parsed o) self "" ∅).1
     = Raise (ValidationError
                (Interpolated "Max rules exceeded. The limit is %(limit)s" 0))
  /\ (clean (parsed o) self "" ∅).1 <> Raise (frequency_failure self)
  /\ frequency_failure self = ValidationError (Plain "Invalid frequency.").
Proof.
  cbv zeta. split; [left|].
  split; [by vm_compute; intros ?%list_elem_of_singleton|].
  split; [by vm_compute|]. split; [by vm_compute|by vm_compute].
Qed.

(** The example of C4: the whitelist is weekly, the rrule is monthly,
    and the field holds a message under [invalid_frequency]. *)
Lemma disallowed_frequency_fails_witness :
  (clean (parsed (mkRecurrence None None [monthly] [] [] []))
     (__init__ charfield_error_messages (Some [WEEKLY]) true true
        None None None None
        (Some {[ "invalid_frequency"%string := "Invalid frequency."%string ]}))
     "" ∅).1
  = Raise (ValidationError (Plain "Invalid frequency.")).
Proof.
  apply (disallowed_frequency_fails
           (parsed (mkRecurrence None None [monthly] [] [] []))
           (__init__ charfield_error_messages (Some [WEEKLY]) true true
              None None None None
              (Some {[ "invalid_frequency"%string
                       := "Invalid frequency."%string ]}))
           "" _ ∅ monthly eq_refl).
  - left.
  - by intros ?%list_elem_of_singleton.
  - intros c Hc. destruct c; exact Hc.
  - by vm_compute.
Defined.

(** C6 on a model with three rdates and no max on rdates. *)
Lemma unlimited_never_limit_exceeded_witness :
  ~ exists limit,
      (clean (parsed (mkRecurrence None None [] []
                        [new_year; new_year; new_year] []))
         (__init__ charfield_error_messages None true true
            (Some 0) (Some 0) None (Some 0) None) "" ∅).1
      = Raise (LimitExceeded Rdates limit).
Proof.
  intros [limit Hraise]. revert Hraise.
  exact (unlimited_never_limit_exceeded
           (parsed (mkRecurrence None None [] []
                      [new_year; new_year; new_year] []))
           charfield_error_messages None true true
           (Some 0) (Some 0) None (Some 0) "" _ ∅ Rdates eq_refl eq_refl
           limit).
Defined.

(** C7 as stated fails for a collection checked after one that is over
    its limit: with [max_rrules = 1], [max_exrules = 0], two rrules and one
    exrule, the error carries the limit [1] of rrules, and no error with
    limit [0] is raised. *)
Lemma zero_max_counterexample :
  let self :=
    __init__ charfield_error_messages None true true
      (Some 1) (Some 0) None None None in
  let o := mkRecurrence None None [daily; weekly] [daily] [] [] in
  policy_max self Exrules = Some 0
  /\ (0 < size_of Exrules o)%nat
  /\ (clean (parsed o) self "" ∅).1 = Raise (LimitExceeded Rrules 1)
  /\ forall c, (clean (parsed o) self "" ∅).1 <> Raise (LimitExceeded c 0).
Proof.
  cbv zeta. split; [reflexivity|]. split; [cbn; lia|].
  split; [by vm_compute|]. intros c Hraise. by destruct c; vm_compute in Hraise.
Qed.

(** C7 with exrules disabled, one exrule, and rrules within their max:
    the error is the one of exrules with limit [0]. *)
Lemma zero_max_disables_witness :
  (clean (parsed (mkRecurrence None None [daily] [daily] [] []))
     (__init__ charfield_error_messages None true true
        (Some 1) (Some 0) None None None) "" ∅).1
  = Raise (LimitExceeded Exrules 0).
Proof.
  apply (zero_max_disables
           (parsed (mkRecurrence None None [daily] [daily] [] []))
           charfield_error_messages None true true (Some 1) (Some 0) None None
           "" (mkRecurrence None None [daily] [daily] [] []) ∅ Exrules
           eq_refl eq_refl).
  - cbn. lia.
  - intros c' Hc' Hex. apply list_elem_of_singleton in Hc' as ->.
    vm_compute in Hex. discriminate.
Defined.

(** C8 on a model that uses all of yearly to secondly. *)
Lemma default_frequencies_never_disallowed_witness :
  let o :=
    mkRecurrence None None
      [mkRule YEARLY 1 None None None None None None;
       monthly; weekly; daily;
       mkRule HOURLY 1 None None None None None None]
      [mkRule MINUTELY 1 None None None None None None;
       mkRule SECONDLY 1 None None None None None None] [] [] in
  (clean (parsed o)
     (__init__ charfield_error_messages None true true
        None None None None None) "" ∅).1
  = Return 1%positive.
Proof.
  intros o.
  destruct (default_frequencies_never_disallowed
              (parsed o) charfield_error_messages true true
              None None None None "" o ∅ eq_refl) as (_ & Hreturn & _).
  apply Hreturn. intros c Hc. destruct c; exact Hc.
Defined.

(** C10 as stated fails when a collection is over its limit: with
    [max_exrules = 0], a weekly whitelist and one monthly exrule, a field
    with no message under [invalid_frequency] fails with the limit error
    of exrules, a [ValidationError], and not with a [KeyError]. *)
Lemma misspelled_key_counterexample :
  let self :=
    __init__ charfield_error_messages (Some [WEEKLY]) true true
      None (Some 0) None None None in
  let o := mkRecurrence None None [] [monthly] [] [] in
  error_messages self !! "invalid_frequency"%string = None
  /\ monthly ∈ exrules o
  /\ (freq monthly ∉ frequencies self)
  /\ (clean (parsed o) self "" ∅).1 = Raise (LimitExceeded Exrules 0)
  /\ forall key, (clean (parsed o) self "" ∅).1 <> Raise (KeyError key).
Proof.
  cbv zeta. split; [by vm_compute|]. split; [left|].
  split; [by vm_compute; intros ?%list_elem_of_singleton|].
  split; [by vm_compute|]. intros key Hraise. by vm_compute in Hraise.
Qed.

(** C10 on the field of the example of C4, built without an
    [error_messages] argument over the messages of [forms.CharField]. *)
Lemma misspelled_key_raises_KeyError_witness :
  (clean (parsed (mkRecurrence None None [monthly] [] [] []))
     (__init__ charfield_error_messages (Some [WEEKLY]) true true
        None None None None None) "" ∅).1
  = Raise (KeyError "invalid_frequency").
Proof.
  apply (misspelled_key_raises_KeyError
           (parsed (mkRecurrence None None [monthly] [] [] []))
           charfield_error_messages (Some [WEEKLY]) true true
           None None None None None ""
           (mkRecurrence None None [monthly] [] [] []) ∅ monthly).
  - reflexivity.
  - reflexivity.
  - reflexivity.
  - left.
  - by intros ?%list_elem_of_singleton.
  - intros c Hc. destruct c; exact Hc.
Defined.

Local Open Scope nat_scope.

(** ** The text format: proofs *)

(** *** Digits *)

Lemma digit_value_digit (d : nat) : d < 10 -> digit_value (digit d) = Some d.
Proof.
  intros Hd. do 10 (destruct d as [|d]; [reflexivity|]). lia.
Qed.

Lemma rank_digit (d : nat) : d < 10 -> rank (digit d) = 0.
Proof.
  intros Hd. do 10 (destruct d as [|d]; [reflexivity|]). lia.
Qed.

Lemma digit_not_sign (d : nat) :
  d < 10 -> digit d <> "-"%char /\ digit d <> "+"%char.
Proof.
  intros Hd. do 10 (destruct d as [|d]; [by split|]). lia.
Qed.

(** *** Levels of text *)

Lemma below_nil (n : nat) : below n [].
Proof. constructor. Qed.

Lemma below_cons (n : nat) (c : ascii) (s : text) :
  rank c < n -> below n s -> below n (c :: s).
Proof. by constructor. Qed.

Lemma below_app (n : nat) (s1 s2 : text) :
  below n s1 -> below n s2 -> below n (s1 ++ s2).
Proof. intros. by apply Forall_app. Qed.

Lemma below_mono (n n' : nat) (s : text) :
  n <= n' -> below n s -> below n' s.
Proof.
  intros Hn Hs. eapply Forall_impl; [exact Hs|]. intros c Hc. cbn in Hc. lia.
Qed.

Lemma below_not_elem (n : nat) (s : text) (c : ascii) :
  below n s -> n <= rank c -> c ∉ s.
Proof.
  intros Hs Hc Hin. unfold below in Hs. rewrite Forall_forall in Hs.
  specialize (Hs c Hin). lia.
Qed.

(** Text written out in the development: its characters are checked by
    computation. *)
Ltac below_literal :=
  repeat first [apply below_nil | apply below_cons; [vm_compute; lia|]].

(** *** Splitting *)

Lemma split_on_no_sep (sep : ascii) (s : text) :
  sep ∉ s -> split_on sep s = [s].
Proof.
  induction s as [|c s IH]; [reflexivity|].
  intros Hs. cbn [split_on]. rewrite bool_decide_eq_false_2.
  - rewrite IH; [reflexivity|]. intros ?. apply Hs. by right.
  - intros ->. apply Hs. left.
Qed.

Lemma split_on_app (sep : ascii) (s rest : text) :
  sep ∉ s -> split_on sep (s ++ sep :: rest) = s :: split_on sep rest.
Proof.
  induction s as [|c s IH]; intros Hs.
  - cbn. by rewrite bool_decide_eq_true_2.
  - cbn [app split_on]. rewrite bool_decide_eq_false_2.
    + rewrite IH; [reflexivity|]. intros ?. apply Hs. by right.
    + intros ->. apply Hs. left.
Qed.

Lemma split_on_join (sep : ascii) (pieces : list text) :
  pieces <> [] ->
  Forall (fun piece => sep ∉ piece) pieces ->
  split_on sep (join sep pieces) = pieces.
Proof.
  induction pieces as [|p ps IH]; [done|]. intros _ Hall.
  apply Forall_cons in Hall as [Hp Hps].
  destruct ps as [|q ps]; [by apply split_on_no_sep|].
  change (join sep (p :: q :: ps)) with (p ++ sep :: join sep (q :: ps)).
  rewrite split_on_app by assumption. by rewrite IH.
Qed.

Lemma split_on_unlines (lines : list text) :
  Forall (fun l => newline ∉ l) lines ->
  split_on newline (unlines lines) = lines ++ [[]].
Proof.
  induction 1 as [|l ls Hl _ IH]; [reflexivity|].
  unfold unlines. cbn [fmap list_fmap concat]. rewrite <- app_assoc.
  cbn [app]. rewrite split_on_app by assumption.
  cbn [app]. f_equal. exact IH.
Qed.

Lemma cut_app (sep : ascii) (key value : text) :
  sep ∉ key -> cut sep (key ++ sep :: value) = Some (key, value).
Proof.
  induction key as [|c key IH]; intros Hk.
  - cbn. by rewrite bool_decide_eq_true_2.
  - cbn [app cut]. rewrite bool_decide_eq_false_2.
    + rewrite IH; [reflexivity|]. intros ?. apply Hk. by right.
    + intros ->. apply Hk. left.
Qed.

Lemma below_join (n : nat) (sep : ascii) (pieces : list text) :
  rank sep < n ->
  Forall (below n) pieces -> below n (join sep pieces).
Proof.
  intros Hsep. induction 1 as [|p ps Hp Hps IH]; [constructor|].
  destruct ps as [|q ps]; [exact Hp|].
  change (join sep (p :: q :: ps)) with (p ++ sep :: join sep (q :: ps)).
  apply below_app; [exact Hp|]. by apply below_cons.
Qed.

(** *** White space *)

Lemma rank_space (c : ascii) : is_space c = true -> rank c = 5.
Proof.
  unfold is_space. rewrite !orb_true_iff, !bool_decide_eq_true.
  by intros [[->| ->]| ->].
Qed.

Lemma strip_left_below (s : text) : below 5 s -> strip_left s = s.
Proof.
  destruct 1 as [|c s Hc _]; [reflexivity|]. cbn.
  destruct (is_space c) eqn:Hsp; [|reflexivity].
  apply rank_space in Hsp. lia.
Qed.

Lemma strip_below (s : text) : below 5 s -> strip s = s.
Proof.
  intros Hs. unfold strip. rewrite (strip_left_below s Hs).
  rewrite strip_left_below; [apply reverse_involutive|].
  unfold below. by apply Forall_reverse.
Qed.

(** *** Numbers *)

Lemma parse_digits_snoc (s : text) (c : ascii) :
  parse_digits (s ++ [c])
  = (n ← parse_digits s; d ← digit_value c; Some (10 * n + d)).
Proof. unfold parse_digits. by rewrite foldl_app. Qed.

Lemma print_nat_aux_spec (fuel n : nat) :
  n < fuel ->
  parse_digits (print_nat_aux fuel n) = Some n
  /\ print_nat_aux fuel n <> []
  /\ all_digits (print_nat_aux fuel n).
Proof.
  revert n. induction fuel as [|fuel IH]; intros n Hn; [lia|].
  cbn [print_nat_aux]. destruct (Nat.ltb_spec n 10) as [Hlt|Hge].
  - repeat split.
    + unfold parse_digits. cbn [foldl]. cbn [mbind option_bind].
      rewrite (digit_value_digit n Hlt). cbn. f_equal.
    + done.
    + repeat constructor. by rewrite (digit_value_digit n Hlt).
  - assert (Hmod : n mod 10 < 10) by (apply Nat.mod_upper_bound; lia).
    assert (Hdiv : n / 10 < fuel).
    { apply Nat.Div0.div_lt_upper_bound. lia. }
    destruct (IH (n / 10) Hdiv) as (Hparse & Hne & Hall).
    repeat split.
    + rewrite parse_digits_snoc, Hparse. cbn [mbind option_bind].
      rewrite (digit_value_digit _ Hmod). cbn [mbind option_bind].
      f_equal. symmetry. apply Nat.div_mod_eq.
    + intros Hnil. by apply app_eq_nil in Hnil as [_ ?].
    + apply Forall_app. split; [exact Hall|].
      repeat constructor. by rewrite (digit_value_digit _ Hmod).
Qed.

Lemma parse_print_nat (n : nat) : parse_nat (print_nat n) = Some n.
Proof.
  destruct (print_nat_aux_spec (S n) n) as (Hparse & Hne & _); [lia|].
  unfold parse_nat, print_nat in *.
  by destruct (print_nat_aux (S n) n).
Qed.

Lemma all_digits_print_nat (n : nat) : all_digits (print_nat n).
Proof. apply (print_nat_aux_spec (S n) n). lia. Qed.

Lemma print_nat_nonempty (n : nat) : print_nat n <> [].
Proof. apply (print_nat_aux_spec (S n) n). lia. Qed.

Lemma rank_of_digit (c : ascii) : is_Some (digit_value c) -> rank c = 0.
Proof.
  intros Hc. unfold rank. by rewrite (bool_decide_eq_true_2 _ Hc).
Qed.

Lemma all_digits_below (s : text) : all_digits s -> below 1 s.
Proof.
  intros Hs. eapply Forall_impl; [exact Hs|].
  intros c Hc. cbn. rewrite (rank_of_digit c Hc). lia.
Qed.

Lemma below_print_nat (n : nat) : below 1 (print_nat n).
Proof. apply all_digits_below, all_digits_print_nat. Qed.

Lemma parse_print_int (z : Z) : parse_int (print_int z) = Some z.
Proof.
  unfold print_int. case_bool_decide as Hz.
  - cbn [parse_int]. rewrite parse_print_nat. cbn. f_equal. lia.
  - pose proof (all_digits_print_nat (Z.to_nat z)) as Hall.
    pose proof (parse_print_nat (Z.to_nat z)) as Hparse.
    destruct (print_nat (Z.to_nat z)) as [|c s] eqn:Hp;
      [by apply print_nat_nonempty in Hp|].
    apply Forall_cons in Hall as [Hc _].
    assert (Hminus : c <> "-"%char) by (intros ->; by destruct Hc).
    assert (Hplus : c <> "+"%char) by (intros ->; by destruct Hc).
    assert (Hgo : parse_int (c :: s) = Z.of_nat <$> parse_nat (c :: s)).
    { unfold parse_int.
      destruct c as [[] [] [] [] [] [] [] []]; try reflexivity;
        congruence. }
    rewrite Hgo, Hparse. cbn. f_equal. lia.
Qed.

Lemma below_print_int (z : Z) : below 1 (print_int z).
Proof.
  unfold print_int. case_bool_decide.
  - apply below_cons; [vm_compute; lia|apply below_print_nat].
  - apply below_print_nat.
Qed.

Lemma print_int_nonempty (z : Z) : print_int z <> [].
Proof.
  unfold print_int. case_bool_decide; [done|apply print_nat_nonempty].
Qed.

Lemma parse_print_2 (n : nat) :
  n < 100 -> parse_2 (digit (n / 10)) (digit (n mod 10)) = Some n.
Proof.
  intros Hn.
  assert (Hdiv : n / 10 < 10) by (apply Nat.Div0.div_lt_upper_bound; lia).
  assert (Hmod : n mod 10 < 10) by (apply Nat.mod_upper_bound; lia).
  unfold parse_2. rewrite (digit_value_digit _ Hdiv). cbn [mbind option_bind].
  rewrite (digit_value_digit _ Hmod). cbn [mbind option_bind].
  f_equal. symmetry. apply Nat.div_mod_eq.
Qed.

Lemma below_print_2 (n : nat) : n < 100 -> below 1 (print_2 n).
Proof.
  intros Hn.
  assert (Hdiv : n / 10 < 10) by (apply Nat.Div0.div_lt_upper_bound; lia).
  assert (Hmod : n mod 10 < 10) by (apply Nat.mod_upper_bound; lia).
  unfold print_2.
  apply below_cons; [rewrite rank_digit; lia|].
  apply below_cons; [rewrite rank_digit; lia|apply below_nil].
Qed.

(** *** Timestamps *)

Lemma parse_print_time_of_day (t : TimeOfDay) :
  valid_time_of_day t -> parse_time_of_day (print_time_of_day t) = Some t.
Proof.
  destruct t as [h m s]. intros (Hh & Hm & Hs). cbn in Hh, Hm, Hs.
  unfold print_time_of_day, print_2. cbn [hour minute second app].
  cbn [parse_time_of_day].
  rewrite !parse_print_2 by lia. reflexivity.
Qed.

Lemma parse_print_timestamp (t : Timestamp) :
  valid_timestamp t -> parse_timestamp (print_timestamp t) = Some t.
Proof.
  destruct t as [y m d tod]. intros (Hy & Hm & Hd & Htod).
  cbn in Hy, Hm, Hd, Htod.
  assert (Hyh : y / 100 < 100) by (apply Nat.Div0.div_lt_upper_bound; lia).
  assert (Hyl : y mod 100 < 100) by (apply Nat.mod_upper_bound; lia).
  assert (Hyear : 100 * (y / 100) + y mod 100 = y)
    by (symmetry; apply Nat.div_mod_eq).
  unfold print_timestamp, print_2. cbn [year month day time app].
  cbn [parse_timestamp].
  rewrite !parse_print_2 by lia. cbn [mbind option_bind]. rewrite Hyear.
  destruct tod as [tod|]; [|reflexivity].
  cbn [app]. by rewrite (parse_print_time_of_day tod Htod).
Qed.

Lemma below_print_timestamp (t : Timestamp) :
  valid_timestamp t -> below 1 (print_timestamp t).
Proof.
  destruct t as [y m d tod]. intros (Hy & Hm & Hd & Htod).
  cbn in Hy, Hm, Hd, Htod.
  assert (Hyh : y / 100 < 100) by (apply Nat.Div0.div_lt_upper_bound; lia).
  assert (Hyl : y mod 100 < 100) by (apply Nat.mod_upper_bound; lia).
  unfold print_timestamp. cbn [year month day time].
  repeat (apply below_app; [apply below_print_2; lia|]).
  destruct tod as [[h mi s]|]; [|apply below_nil].
  destruct Htod as (Hh & Hmi & Hs). cbn in Hh, Hmi, Hs.
  apply below_cons; [vm_compute; lia|]. unfold print_time_of_day.
  cbn [hour minute second].
  repeat (apply below_app; [apply below_print_2; lia|]).
  apply below_print_2; lia.
Qed.

Lemma print_timestamp_nonempty (t : Timestamp) : print_timestamp t <> [].
Proof. done. Qed.

(** *** Frequencies and weekdays *)

Lemma parse_print_frequency (f : Frequency) :
  parse_frequency (print_frequency f) = Some f.
Proof. by destruct f; vm_compute. Qed.

Lemma below_print_frequency (f : Frequency) : below 1 (print_frequency f).
Proof. destruct f; below_literal. Qed.

Lemma parse_print_weekday (w : Weekday) :
  parse_weekday (print_weekday w) = Some w.
Proof. by destruct w; vm_compute. Qed.

Lemma below_print_weekday (w : Weekday) : below 1 (print_weekday w).
Proof. destruct w; below_literal. Qed.

Lemma length_print_weekday (w : Weekday) : length (print_weekday w) = 2.
Proof. by destruct w. Qed.

Lemma parse_print_weekday_token (t : WeekdayToken) :
  parse_weekday_token (print_weekday_token t) = Some t.
Proof.
  destruct t as [o w]. unfold parse_weekday_token, print_weekday_token.
  cbn [ordinal weekday].
  set (prefix := match o with Some z => print_int z | None => [] end).
  assert (Hlen : length (prefix ++ print_weekday w) - 2 = length prefix).
  { rewrite length_app, length_print_weekday. lia. }
  rewrite Hlen, take_app_length, drop_app_length.
  destruct (Nat.ltb_spec (length (prefix ++ print_weekday w)) 2) as [Hlt|_].
  { rewrite length_app, length_print_weekday in Hlt. lia. }
  rewrite parse_print_weekday. cbn [mbind option_bind].
  destruct o as [z|]; [|reflexivity]. subst prefix.
  pose proof (print_int_nonempty z) as Hne.
  destruct (print_int z) as [|c s] eqn:Hp; [done|].
  rewrite <- Hp, parse_print_int. reflexivity.
Qed.

Lemma below_print_weekday_token (t : WeekdayToken) :
  below 1 (print_weekday_token t).
Proof.
  unfold print_weekday_token. apply below_app; [|apply below_print_weekday].
  destruct (ordinal t); [apply below_print_int|apply below_nil].
Qed.

(** *** Lists separated by commas *)

Lemma parse_print_csv {A : Type} (print : A -> text)
    (parse : text -> option A) (xs : list A) :
  xs <> [] ->
  Forall (fun x => below 1 (print x) /\ parse (print x) = Some x) xs ->
  parse_csv parse (print_csv print xs) = Some xs.
Proof.
  intros Hne Hall. unfold parse_csv, print_csv.
  rewrite split_on_join.
  - clear Hne. induction Hall as [|x xs [_ Hx] _ IH]; [reflexivity|].
    cbn [fmap list_fmap mapM]. rewrite Hx. cbn [mbind option_bind].
    fold (fmap print xs). rewrite IH. reflexivity.
  - by destruct xs.
  - apply Forall_fmap. eapply Forall_impl; [exact Hall|].
    intros x [Hx _]. cbn. by apply (below_not_elem 1).
Qed.

Lemma below_print_csv {A : Type} (print : A -> text) (xs : list A) :
  Forall (fun x => below 1 (print x)) xs -> below 2 (print_csv print xs).
Proof.
  intros Hall. apply below_join; [vm_compute; lia|].
  apply Forall_fmap. eapply Forall_impl; [exact Hall|].
  intros x Hx. apply (below_mono 1 2); [lia|exact Hx].
Qed.

(** *** Rules *)

Lemma parse_pair_key_value (key : string) (value : text) :
  keyword_like key -> parse_pair (key_value key value) = Ok (chars key, value).
Proof.
  intros Hk. unfold parse_pair, key_value. rewrite cut_app; [reflexivity|].
  apply (below_not_elem 1); [exact Hk|vm_compute; lia].
Qed.

Lemma below_key_value (key : string) (value : text) :
  keyword_like key -> below 2 value -> below 3 (key_value key value).
Proof.
  intros Hk Hv. unfold key_value. apply below_app.
  - by apply (below_mono 1 3); [lia|].
  - apply below_cons; [vm_compute; lia|]. by apply (below_mono 2 3); [lia|].
Qed.

Lemma rule_step_key_value (r r' : Rule) (key : string) (value : text) :
  keyword_like key ->
  rule_part r (chars key) value = Ok r' ->
  rule_step (Ok r) (key_value key value) = Ok r'.
Proof.
  intros Hk Hpart. unfold rule_step. cbn [mbind Parsed_bind].
  by rewrite (parse_pair_key_value key value Hk).
Qed.

Lemma fold_optional {A : Type} (key : string) (print : A -> text)
    (set : A -> Rule -> Rule) (o : option A) (r : Rule) :
  keyword_like key ->
  (forall a, o = Some a -> rule_part r (chars key) (print a) = Ok (set a r)) ->
  foldl rule_step (Ok r) (optional key print o) = Ok (apply_opt set o r).
Proof.
  intros Hk Hpart. destruct o as [a|]; [|reflexivity].
  cbn [optional foldl apply_opt]. apply rule_step_key_value; auto.
Qed.

Lemma valid_filter_csv {A : Type} (P : A -> Prop) (print : A -> text)
    (parse : text -> option A) (xs : list A) :
  (forall x, below 1 (print x) /\ parse (print x) = Some x) ->
  valid_filter P (Some xs) ->
  parse_csv parse (print_csv print xs) = Some xs.
Proof.
  intros Hitem [Hne _]. apply parse_print_csv; [exact Hne|].
  apply Forall_forall. auto.
Qed.

Lemma below_optional {A : Type} (key : string) (print : A -> text)
    (o : option A) :
  keyword_like key ->
  (forall a, o = Some a -> below 2 (print a)) ->
  Forall (below 3) (optional key print o).
Proof.
  intros Hk Hv. destruct o as [a|]; [|constructor].
  apply Forall_singleton, below_key_value; auto.
Qed.

Lemma below_print_csv_int (xs : list Z) : below 2 (print_csv print_int xs).
Proof.
  apply below_print_csv, Forall_forall. intros z _. apply below_print_int.
Qed.

Lemma below_rule_parts (r : Rule) :
  valid_rule r -> Forall (below 3) (rule_parts r).
Proof.
  intros (_ & _ & Huntil & _). unfold rule_parts.
  repeat apply Forall_app_2.
  - apply Forall_singleton, below_key_value; [below_literal|].
    apply (below_mono 1 2); [lia|apply below_print_frequency].
  - destruct (interval r =? 1); [constructor|].
    apply Forall_singleton, below_key_value; [below_literal|].
    apply (below_mono 1 2); [lia|apply below_print_nat].
  - apply below_optional; [below_literal|]. intros n _.
    apply (below_mono 1 2); [lia|apply below_print_nat].
  - apply below_optional; [below_literal|]. intros t Ht.
    rewrite Ht in Huntil.
    apply (below_mono 1 2); [lia|by apply below_print_timestamp].
  - apply below_optional; [below_literal|]. intros xs _.
    apply below_print_csv_int.
  - apply below_optional; [below_literal|]. intros xs _.
    apply below_print_csv_int.
  - apply below_optional; [below_literal|]. intros xs _.
    apply below_print_csv, Forall_forall. intros t _.
    apply below_print_weekday_token.
  - apply below_optional; [below_literal|]. intros xs _.
    apply below_print_csv_int.
Qed.

Lemma below_print_rule (r : Rule) : valid_rule r -> below 4 (print_rule r).
Proof.
  intros Hr. apply below_join; [vm_compute; lia|].
  eapply Forall_impl; [exact (below_rule_parts r Hr)|].
  intros part Hpart. apply (below_mono 3 4); [lia|exact Hpart].
Qed.

Lemma int_item (z : Z) :
  below 1 (print_int z) /\ parse_int (print_int z) = Some z.
Proof. split; [apply below_print_int|apply parse_print_int]. Qed.

Lemma weekday_token_item (t : WeekdayToken) :
  below 1 (print_weekday_token t)
  /\ parse_weekday_token (print_weekday_token t) = Some t.
Proof.
  split; [apply below_print_weekday_token|apply parse_print_weekday_token].
Qed.

(** Each key is told from the keys tested before it. *)
Ltac pick_key :=
  unfold rule_part;
  repeat (rewrite bool_decide_eq_false_2 by (by vm_compute));
  rewrite bool_decide_eq_true_2 by reflexivity.

Lemma parse_print_rule (r : Rule) :
  valid_rule r -> parse_rule (print_rule r) = Ok r.
Proof.
  intros Hr.
  pose proof (below_rule_parts r Hr) as Hparts.
  destruct Hr as (_ & Hexcl & Huntil & Hbm & Hbmd & Hbd & Hbsp).
  unfold parse_rule, print_rule.
  rewrite split_on_join.
  2: { done. }
  2: { eapply Forall_impl; [exact Hparts|]. intros part Hp.
       apply (below_not_elem 3); [exact Hp|vm_compute; lia]. }
  clear Hparts. unfold rule_parts. cbn [app].
  rewrite parse_pair_key_value by below_literal. cbn [mbind Parsed_bind fst snd].
  rewrite bool_decide_eq_true_2 by reflexivity.
  rewrite parse_print_frequency. cbn [expect mbind Parsed_bind].
  set (r0 := mkRule (freq r) 1 None None None None None None).
  set (r1 := if interval r =? 1 then r0 else set_interval (interval r) r0).
  rewrite foldl_app.
  assert (H1 : foldl rule_step (Ok r0)
                 (if interval r =? 1 then []
                  else [key_value "INTERVAL" (print_nat (interval r))]) = Ok r1).
  { subst r1. destruct (interval r =? 1); [reflexivity|].
    cbn [foldl]. apply rule_step_key_value; [below_literal|].
    pick_key. by rewrite parse_print_nat. }
  rewrite H1. clear H1.
  rewrite foldl_app, (fold_optional "COUNT" print_nat set_count).
  2: { below_literal. }
  2: { intros n _. pick_key. by rewrite parse_print_nat. }
  rewrite foldl_app, (fold_optional "UNTIL" print_timestamp set_until).
  2: { below_literal. }
  2: { intros t Ht. rewrite Ht in Huntil. pick_key.
       by rewrite (parse_print_timestamp t Huntil). }
  rewrite foldl_app, (fold_optional "BYMONTH" _ set_bymonth).
  2: { below_literal. }
  2: { intros xs Hxs. rewrite Hxs in Hbm. pick_key.
       by rewrite (valid_filter_csv _ _ _ xs int_item Hbm). }
  rewrite foldl_app, (fold_optional "BYMONTHDAY" _ set_bymonthday).
  2: { below_literal. }
  2: { intros xs Hxs. rewrite Hxs in Hbmd. pick_key.
       by rewrite (valid_filter_csv _ _ _ xs int_item Hbmd). }
  rewrite foldl_app, (fold_optional "BYDAY" _ set_byday).
  2: { below_literal. }
  2: { intros xs Hxs. rewrite Hxs in Hbd. pick_key.
       by rewrite (valid_filter_csv _ _ _ xs weekday_token_item Hbd). }
  rewrite (fold_optional "BYSETPOS" _ set_bysetpos).
  2: { below_literal. }
  2: { intros xs Hxs. rewrite Hxs in Hbsp. pick_key.
       by rewrite (valid_filter_csv _ _ _ xs int_item Hbsp). }
  cbn [mbind Parsed_bind].
  subst r1 r0. clear Huntil Hbm Hbmd Hbd Hbsp.
  destruct r as [f i c u bm bmd bd bsp]. cbn [interval count until] in *.
  cbn [freq bymonth bymonthday byday bysetpos].
  destruct (Nat.eqb_spec i 1) as [->|_];
    destruct c, u, bm, bmd, bd, bsp;
    first [reflexivity|by destruct Hexcl].
Qed.

(** *** Lines *)

Lemma below_directive (keyword : string) (body : text) :
  keyword_like keyword -> below 4 body -> below 5 (directive keyword body).
Proof.
  intros Hk Hb. unfold directive. apply below_app.
  - by apply (below_mono 1 5); [lia|].
  - apply below_cons; [vm_compute; lia|]. by apply (below_mono 4 5); [lia|].
Qed.

Lemma parse_line_directive (m : Recurrence) (keyword : string) (body : text) :
  keyword_like keyword -> below 4 body ->
  parse_line m (directive keyword body) = parse_directive m (chars keyword) body.
Proof.
  intros Hk Hb. unfold parse_line.
  rewrite strip_below by (by apply below_directive).
  destruct (directive keyword body) as [|c l] eqn:Hd.
  { unfold directive in Hd. symmetry in Hd. by apply app_cons_not_nil in Hd. }
  rewrite <- Hd. unfold directive. rewrite cut_app; [reflexivity|].
  apply (below_not_elem 1); [exact Hk|vm_compute; lia].
Qed.

Lemma parse_lines_app (n : nat) (lines1 lines2 : list text) (m : Recurrence) :
  parse_lines n (lines1 ++ lines2) m
  = match parse_lines n lines1 m with
    | Return m' => parse_lines (length lines1 + n) lines2 m'
    | Raise e => Raise e
    end.
Proof.
  revert n m. induction lines1 as [|l lines1 IH]; intros n m; [reflexivity|].
  cbn [app parse_lines length]. destruct (parse_line m l); [|reflexivity].
  rewrite IH. by rewrite Nat.add_succ_r.
Qed.

(** Each directive is told from the directives tested before it. *)
Ltac pick_directive :=
  unfold parse_directive;
  repeat (rewrite bool_decide_eq_false_2 by (by vm_compute));
  rewrite bool_decide_eq_true_2 by reflexivity.

Lemma below_timestamp_body (t : Timestamp) :
  valid_timestamp t -> below 4 (print_timestamp t).
Proof.
  intros Ht. apply (below_mono 1 4); [lia|by apply below_print_timestamp].
Qed.

Lemma below_dates_body (ts : list Timestamp) :
  Forall valid_timestamp ts -> below 4 (print_csv print_timestamp ts).
Proof.
  intros Hts. apply (below_mono 2 4); [lia|]. apply below_print_csv.
  eapply Forall_impl; [exact Hts|]. apply below_print_timestamp.
Qed.

Lemma parse_dates_body (ts : list Timestamp) :
  ts <> [] -> Forall valid_timestamp ts ->
  parse_csv parse_timestamp (print_csv print_timestamp ts) = Some ts.
Proof.
  intros Hne Hts. apply parse_print_csv; [exact Hne|].
  eapply Forall_impl; [exact Hts|]. intros t Ht.
  split; [by apply below_print_timestamp|by apply parse_print_timestamp].
Qed.

Lemma parse_dtstart_line (n : nat) (o : option Timestamp) (m : Recurrence) :
  valid_anchor o ->
  parse_lines n (anchor_line "DTSTART" o) m
  = Return (set_anchor with_dtstart o m).
Proof.
  intros Ho. destruct o as [t|]; [|reflexivity].
  cbn [anchor_line parse_lines set_anchor].
  rewrite parse_line_directive;
    [|below_literal|by apply below_timestamp_body].
  pick_directive. by rewrite (parse_print_timestamp t Ho).
Qed.

Lemma parse_dtend_line (n : nat) (o : option Timestamp) (m : Recurrence) :
  valid_anchor o ->
  parse_lines n (anchor_line "DTEND" o) m
  = Return (set_anchor with_dtend o m).
Proof.
  intros Ho. destruct o as [t|]; [|reflexivity].
  cbn [anchor_line parse_lines set_anchor].
  rewrite parse_line_directive;
    [|below_literal|by apply below_timestamp_body].
  pick_directive. by rewrite (parse_print_timestamp t Ho).
Qed.

Lemma parse_rrule_lines (n : nat) (rs : list Rule) (m : Recurrence) :
  Forall valid_rule rs ->
  parse_lines n ((fun r => directive "RRULE" (print_rule r)) <$> rs) m
  = Return (mkRecurrence (dtstart m) (dtend m) (rrules m ++ rs) (exrules m)
              (rdates m) (exdates m)).
Proof.
  intros Hrs. revert n m.
  induction Hrs as [|r rs Hr _ IH]; intros n m.
  - cbn. rewrite app_nil_r. by destruct m.
  - rewrite fmap_cons. cbn [parse_lines].
    rewrite parse_line_directive;
      [|below_literal|by apply below_print_rule].
    pick_directive. rewrite (parse_print_rule r Hr).
    cbn [mbind Parsed_bind].
    rewrite IH. cbn [add_rrule dtstart dtend rrules exrules rdates exdates].
    by rewrite <- app_assoc.
Qed.

Lemma parse_exrule_lines (n : nat) (rs : list Rule) (m : Recurrence) :
  Forall valid_rule rs ->
  parse_lines n ((fun r => directive "EXRULE" (print_rule r)) <$> rs) m
  = Return (mkRecurrence (dtstart m) (dtend m) (rrules m) (exrules m ++ rs)
              (rdates m) (exdates m)).
Proof.
  intros Hrs. revert n m.
  induction Hrs as [|r rs Hr _ IH]; intros n m.
  - cbn. rewrite app_nil_r. by destruct m.
  - rewrite fmap_cons. cbn [parse_lines].
    rewrite parse_line_directive;
      [|below_literal|by apply below_print_rule].
    pick_directive. rewrite (parse_print_rule r Hr).
    cbn [mbind Parsed_bind].
    rewrite IH. cbn [add_exrule dtstart dtend rrules exrules rdates exdates].
    by rewrite <- app_assoc.
Qed.

Lemma parse_rdate_line (n : nat) (ts : list Timestamp) (m : Recurrence) :
  Forall valid_timestamp ts ->
  parse_lines n (dates_line "RDATE" ts) m
  = Return (mkRecurrence (dtstart m) (dtend m) (rrules m) (exrules m)
              (rdates m ++ ts) (exdates m)).
Proof.
  intros Hts. destruct ts as [|t ts].
  { cbn. rewrite app_nil_r. by destruct m. }
  cbn [dates_line parse_lines].
  rewrite parse_line_directive;
    [|below_literal|by apply below_dates_body].
  pick_directive. by rewrite (parse_dates_body (t :: ts)).
Qed.

Lemma parse_exdate_line (n : nat) (ts : list Timestamp) (m : Recurrence) :
  Forall valid_timestamp ts ->
  parse_lines n (dates_line "EXDATE" ts) m
  = Return (mkRecurrence (dtstart m) (dtend m) (rrules m) (exrules m)
              (rdates m) (exdates m ++ ts)).
Proof.
  intros Hts. destruct ts as [|t ts].
  { cbn. rewrite app_nil_r. by destruct m. }
  cbn [dates_line parse_lines].
  rewrite parse_line_directive;
    [|below_literal|by apply below_dates_body].
  pick_directive. by rewrite (parse_dates_body (t :: ts)).
Qed.

Lemma below_anchor_line (keyword : string) (o : option Timestamp) :
  keyword_like keyword -> valid_anchor o ->
  Forall (below 5) (anchor_line keyword o).
Proof.
  intros Hk Ho. destruct o as [t|]; [|constructor].
  apply Forall_singleton, below_directive;
    [exact Hk|by apply below_timestamp_body].
Qed.

Lemma below_dates_line (keyword : string) (ts : list Timestamp) :
  keyword_like keyword -> Forall valid_timestamp ts ->
  Forall (below 5) (dates_line keyword ts).
Proof.
  intros Hk Hts. destruct ts as [|t ts]; [constructor|].
  apply Forall_singleton, below_directive;
    [exact Hk|by apply below_dates_body].
Qed.

Lemma below_rule_lines (keyword : string) (rs : list Rule) :
  keyword_like keyword -> Forall valid_rule rs ->
  Forall (below 5) ((fun r => directive keyword (print_rule r)) <$> rs).
Proof.
  intros Hk Hrs. apply Forall_fmap. eapply Forall_impl; [exact Hrs|].
  intros r Hr. apply below_directive; [exact Hk|by apply below_print_rule].
Qed.

Lemma below_model_lines (m : Recurrence) :
  valid_model m -> Forall (below 5) (model_lines m).
Proof.
  intros (Hs & He & Hrr & Hex & Hrd & Hxd). unfold model_lines.
  repeat apply Forall_app_2.
  - apply below_anchor_line; [below_literal|exact Hs].
  - apply below_anchor_line; [below_literal|exact He].
  - apply below_rule_lines; [below_literal|exact Hrr].
  - apply below_rule_lines; [below_literal|exact Hex].
  - apply below_dates_line; [below_literal|exact Hrd].
  - apply below_dates_line; [below_literal|exact Hxd].
Qed.

Lemma parse_model_lines (n : nat) (m : Recurrence) :
  valid_model m ->
  parse_lines n (model_lines m) (mkRecurrence None None [] [] [] [])
  = Return m.
Proof.
  intros (Hs & He & Hrr & Hex & Hrd & Hxd). unfold model_lines.
  rewrite parse_lines_app, (parse_dtstart_line _ _ _ Hs).
  rewrite parse_lines_app, (parse_dtend_line _ _ _ He).
  rewrite parse_lines_app, (parse_rrule_lines _ _ _ Hrr).
  rewrite parse_lines_app, (parse_exrule_lines _ _ _ Hex).
  rewrite parse_lines_app, (parse_rdate_line _ _ _ Hrd).
  rewrite (parse_exdate_line _ _ _ Hxd).
  destruct m as [s e rr ex rd xd]. by destruct s, e.
Qed.

(** C9.  Round trip: a structurally valid model, serialized and parsed
    back, is the model again, field by field; the rules come back in
    their order, and the dates come back as the same lists, hence as the
    same sets. *)
Theorem parse_serialize (m : Recurrence) :
  valid_model m -> parse (serialize m) = Return m.
Proof.
  intros Hm. unfold parse, serialize.
  rewrite list_ascii_of_string_of_list_ascii.
  rewrite split_on_unlines.
  - rewrite parse_lines_app, (parse_model_lines _ m Hm). reflexivity.
  - eapply Forall_impl; [exact (below_model_lines m Hm)|].
    intros l Hl. apply (below_not_elem 5); [exact Hl|vm_compute; lia].
Qed.

(** The text of [busy], and a text with white space that reads as the
    same model: white space around a line and empty lines are accepted and
    are not written back. *)
Example serialize_busy :
  serialize busy
  = String.concat (String newline EmptyString)
      ["DTSTART:20240101T090000";
       "RRULE:FREQ=MONTHLY;INTERVAL=2;COUNT=10;BYMONTH=1,12;BYMONTHDAY=-1;BYDAY=3FR,MO,-1SU;BYSETPOS=-1,2";
       "RRULE:FREQ=DAILY;UNTIL=20240101T090000";
       "EXRULE:FREQ=MONTHLY;INTERVAL=2;COUNT=10;BYMONTH=1,12;BYMONTHDAY=-1;BYDAY=3FR,MO,-1SU;BYSETPOS=-1,2";
       "RDATE:20240101T090000,19991231";
       ""]%string.
Proof. by vm_compute. Qed.

Example parse_tolerates_white_space :
  parse (String.concat (String newline EmptyString)
           ["  DTSTART:20240101T090000  "; "";
            "RRULE:FREQ=DAILY;COUNT=3 "]%string)
  = Return (mkRecurrence (Some new_year) None
              [mkRule DAILY 1 (Some 3) None None None None None] [] [] []).
Proof. by vm_compute. Qed.

Example parse_unknown_frequency :
  parse "RRULE:FREQ=BIWEEKLY" = Raise (FormatError 1 "unknown frequency").
Proof. by vm_compute. Qed.

Example parse_count_and_until :
  parse "RRULE:FREQ=DAILY;COUNT=3;UNTIL=20240101"
  = Raise (FormatError 1 "both count and until").
Proof. by vm_compute. Qed.

Lemma valid_busy : valid_model busy.
Proof.
  unfold valid_model, busy, valid_anchor, valid_timestamp, valid_time_of_day.
  cbn. repeat split; try lia.
  all: repeat apply Forall_cons_2; try apply Forall_nil_2.
  all: unfold valid_rule, valid_filter, valid_anchor, valid_timestamp,
         valid_time_of_day, valid_weekday_token, nonzero_within; cbn.
  all: repeat split; try lia; try done; try (by left); try (by right).
  all: repeat apply Forall_cons_2; try apply Forall_nil_2; cbn.
  all: repeat split; try lia; try done.
Defined.

(** The round trip on [busy]. *)
Lemma parse_serialize_witness : parse (serialize busy) = Return busy.
Proof. exact (parse_serialize busy valid_busy). Defined.

Local Open Scope Z_scope.

(** ** More about [clean] *)

(** Acceptance on the verdict: the form the facts below share. *)
Lemma verdict_returns (self : RecurrenceField) (o : Recurrence) (l : loc) :
  (exists l', verdict self o l = Return l')
  <-> (forall c, ~ exceeds self o c)
      /\ (forall r, r ∈ rrules o ++ exrules o -> freq r ∈ frequencies self).
Proof.
  rewrite <- violations_nil. split.
  - by intros [l' [Hnil _]%verdict_return].
  - intros Hnil. exists l. by apply verdict_return.
Qed.

Section MoreAboutClean.

Variable parser : string -> Outcome Recurrence.
Variable inherited : gmap string string.

(** X1.  [clean] returns an object exactly when no collection of the
    parsed object is over its limit and every rule of rrules and exrules
    has a frequency of the field. *)
Theorem clean_accepts_iff
    (self : RecurrenceField) (value : string) (o : Recurrence) (h : store) :
  parser value = Return o ->
  (exists l, (clean parser self value h).1 = Return l)
  <-> (forall c, ~ exceeds self o c)
      /\ (forall r, r ∈ rrules o ++ exrules o -> freq r ∈ frequencies self).
Proof.
  intros Hp. rewrite (clean_run parser self value o h Hp). cbn [fst].
  apply verdict_returns.
Qed.

(** X2.  Relaxing the policy keeps what was accepted: when [clean]
    returns under a field, it returns under every field whose limits are
    absent or at least as large and whose frequencies include the first
    field's, whatever the anchor flags and the messages of either. *)
Theorem clean_accepts_monotone
    (self self' : RecurrenceField) (value : string) (o : Recurrence)
    (h h' : store) :
  parser value = Return o ->
  (forall c max', policy_max self' c = Some max' ->
     exists max, policy_max self c = Some max /\ max <= max') ->
  frequencies self ⊆ frequencies self' ->
  (exists l, (clean parser self value h).1 = Return l) ->
  exists l', (clean parser self' value h').1 = Return l'.
Proof.
  intros Hp Hlimits Hfreqs.
  rewrite (clean_run parser self value o h Hp).
  rewrite (clean_run parser self' value o h' Hp). cbn [fst].
  rewrite !verdict_returns.
  intros [Hnone Hallowed]. split.
  - intros c Hc. unfold exceeds in Hc.
    destruct (policy_max self' c) as [max'|] eqn:Hmax'; [|done].
    destruct (Hlimits c max' Hmax') as (max & Hmax & Hle).
    apply (Hnone c). unfold exceeds. rewrite Hmax. lia.
  - intros r Hr. apply Hfreqs. auto.
Qed.

(** X3.  A negative max rejects everything: the length of a collection
    is never negative, so with a max below zero on some collection [clean]
    returns on no text that parses and raises on each, even when the
    collection is empty, whatever the rest of the field. *)
Theorem negative_max_rejects_all
    (self : RecurrenceField) (value : string) (o : Recurrence) (h : store)
    (c : Collection) (max : Z) :
  parser value = Return o ->
  policy_max self c = Some max ->
  max < 0 ->
  (exists e, (clean parser self value h).1 = Raise e)
  /\ ~ exists l, (clean parser self value h).1 = Return l.
Proof.
  intros Hp Hmax Hneg. rewrite (clean_run parser self value o h Hp).
  cbn [fst].
  destruct (exceeds_head self o c) as (c' & max' & Hmax' & Hhead).
  { unfold exceeds. rewrite Hmax. lia. }
  apply (verdict_raise self o (fresh (dom h))) in Hhead. rewrite Hhead.
  split; [by eexists|]. by intros [l Hl].
Qed.

(** X4.  The field built with every argument left at its default puts
    no constraint: on every text that parses, [clean] returns a new
    object that is the parsed one, anchors included. *)
Theorem default_field_accepts_all
    (messages : option (gmap string string))
    (value : string) (o : Recurrence) (h : store) :
  parser value = Return o ->
  clean parser
    (__init__ inherited None true true None None None None messages) value h
  = (Return (fresh (dom h)), <[fresh (dom h) := o]> h).
Proof.
  intros Hp. rewrite (clean_run parser _ value o h Hp). f_equal.
  apply verdict_return. split; [|reflexivity].
  apply violations_nil. split.
  - intros c Hc. destruct c; exact Hc.
  - intros r _. apply default_frequencies_all.
Qed.

(** X5.  A text that [deserialize] refuses makes [clean] raise the
    exception of [deserialize] itself: it is not caught and not turned
    into a [ValidationError], no check runs and the store is left as it
    was. *)
Theorem clean_propagates_parse_error
    (self : RecurrenceField) (value : string) (e : Exception) (h : store) :
  parser value = Raise e ->
  clean parser self value h = (Raise e, h).
Proof. apply clean_parse_error. Qed.

(** X6.  An empty sequence of frequencies is kept as given: only [None]
    stands for all seven.  With it, [clean] returns exactly on the objects
    that have no rule at all and no collection over its limit. *)
Theorem empty_frequencies_reject_rules
    (a b : bool) (m1 m2 m3 m4 : option Z)
    (messages : option (gmap string string))
    (value : string) (o : Recurrence) (h : store) :
  let self := __init__ inherited (Some []) a b m1 m2 m3 m4 messages in
  parser value = Return o ->
  (exists l, (clean parser self value h).1 = Return l)
  <-> rrules o = [] /\ exrules o = [] /\ forall c, ~ exceeds self o c.
Proof.
  intros self Hp. rewrite (clean_run parser self value o h Hp).
  cbn [fst]. rewrite verdict_returns.
  split.
  - intros [Hnone Hallowed].
    assert (Hnil : rrules o ++ exrules o = []).
    { destruct (rrules o ++ exrules o) as [|r rs] eqn:Hrs; [done|].
      assert (Hr : freq r ∈ frequencies self) by (apply Hallowed; left).
      by apply elem_of_nil in Hr. }
    apply app_eq_nil in Hnil as [? ?]. done.
  - intros (Hrr & Hex & Hnone). split; [assumption|].
    intros r Hr. rewrite Hrr, Hex in Hr. by apply elem_of_nil in Hr.
Qed.


(** X8.  The anchor flags decide what the returned object holds and
    nothing else: two fields that differ in [accept_dtstart] and
    [accept_dtend] only return or raise alike on every text. *)
Theorem anchor_flags_do_not_change_outcome
    (self : RecurrenceField) (a b : bool) (value : string) (h : store) :
  (clean parser
     (mkRecurrenceField a b (max_rrules self) (max_exrules self)
        (max_rdates self) (max_exdates self) (frequencies self)
        (error_messages self)) value h).1
  = (clean parser self value h).1.
Proof.
  destruct (parser value) as [o|e] eqn:Hp.
  - by rewrite !(clean_run parser _ value o h Hp).
  - by rewrite !(clean_parse_error parser _ value e h Hp).
Qed.

End MoreAboutClean.

(** The frequency failures of a list of rules depend on the frequencies
    of the rules only. *)
Lemma frequency_failures_by_freq (self : RecurrenceField) (x : Exception)
    (rs rs' : list Rule) :
  freq <$> rs = freq <$> rs' ->
  (fun _ => x) <$> filter (disallowed self) rs
  = (fun _ => x) <$> filter (disallowed self) rs'.
Proof.
  revert rs'. induction rs as [|r rs IH]; intros [|r' rs'] Heq;
    try discriminate; [reflexivity|].
  rewrite !fmap_cons in Heq. injection Heq as Hr Hrs.
  rewrite !filter_cons.
  destruct (decide (disallowed self r)) as [Hd|Hd],
           (decide (disallowed self r')) as [Hd'|Hd'].
  - rewrite !fmap_cons. f_equal. by apply IH.
  - unfold disallowed in Hd, Hd'. by rewrite Hr in Hd.
  - unfold disallowed in Hd, Hd'. by rewrite Hr in Hd.
  - by apply IH.
Qed.

Section WhatCleanReads.

Variable parser : string -> Outcome Recurrence.

(** X9.  [clean] reads the length of each collection and the frequency
    of each rule, and nothing else of the object: two texts whose objects
    agree on these make it return or raise alike, whatever their anchors,
    their dates and the other fields of their rules. *)
Theorem clean_reads_sizes_and_frequencies
    (self : RecurrenceField) (value value' : string) (o o' : Recurrence)
    (h : store) :
  parser value = Return o ->
  parser value' = Return o' ->
  (forall c, size_of c o = size_of c o') ->
  freq <$> rrules o = freq <$> rrules o' ->
  freq <$> exrules o = freq <$> exrules o' ->
  (clean parser self value h).1 = (clean parser self value' h).1.
Proof.
  intros Hp Hp' Hsizes Hrr Hex.
  rewrite (clean_run parser self value o h Hp).
  rewrite (clean_run parser self value' o' h Hp'). cbn [fst].
  unfold verdict. replace (violations self o') with (violations self o);
    [reflexivity|].
  unfold violations. f_equal.
  - unfold collections, limit_violation. cbn [omap list_omap].
    by rewrite !Hsizes.
  - apply frequency_failures_by_freq. by rewrite !fmap_app, Hrr, Hex.
Qed.

End WhatCleanReads.

(** ** The widget *)

Section WidgetFacts.

Variable Options : Type.
Variable recurrence_serialize : Recurrence -> string.
Variable dumps : Options -> Failure + string.
Variable textarea_render :
  RecurrenceWidget.t Options -> string -> string ->
  option (gmap string string) -> Failure + string.

(** X10.  The attributes the widget's constructor hands on always hold a
    [class]: every entry of the caller's [attrs] is kept, the caller's
    [class] wins over [recurrence-widget], and nothing else is added.
    The keyword arguments are kept as the options of the script. *)
Theorem widget_init_attrs
    (attrs : option (gmap string string)) (kwargs : Options) (key : string) :
  RecurrenceWidget.attrs Options (RecurrenceWidget.__init__ Options attrs kwargs)
    !! key
  = match attrs ≫= (fun a => a !! key) with
    | Some v => Some v
    | None =>
        if bool_decide (key = "class"%string)
        then Some "recurrence-widget"%string
        else None
    end
  /\ RecurrenceWidget.js_widget_options Options
       (RecurrenceWidget.__init__ Options attrs kwargs) = kwargs.
Proof.
  split; [|reflexivity]. unfold RecurrenceWidget.__init__.
  cbn [RecurrenceWidget.attrs].
  destruct attrs as [a|]; cbn [mbind option_bind].
  - rewrite lookup_union. destruct (a !! key) as [v|]; cbn.
    + by destruct ({[ "class"%string := "recurrence-widget"%string ]}
                     !! key : option string).
    + rewrite lookup_singleton. by repeat case_bool_decide; case_decide.
  - rewrite lookup_singleton. by repeat case_bool_decide; case_decide.
Qed.

(** X11.  [render] needs an identifier: with the default [attrs] of
    [None] it raises [TypeError], and with attributes that hold no [id] it
    raises [KeyError] for [id], whatever the value, before the options are
    dumped and before the text area is rendered. *)
Theorem render_without_id
    (self : RecurrenceWidget.t Options) (name : string) (value : WidgetValue)
    (a : gmap string string) :
  a !! "id"%string = None ->
  RecurrenceWidget.render Options recurrence_serialize dumps textarea_render
    self name value (Some a) = inl (Raised (KeyError "id"))
  /\ RecurrenceWidget.render Options recurrence_serialize dumps textarea_render
       self name value None = inl TypeError.
Proof.
  intros Hid. unfold RecurrenceWidget.render. by rewrite Hid.
Qed.

(** X12.  [render] returns exactly when [attrs] holds an [id], the
    options dump and the text area renders; the text area is given the
    empty text for [None], the serialization for a [Recurrence] object and
    any other value as it is, and the result is the text area's markup, a
    line end, and the script built from the identifier and the options. *)
Theorem render_returns_iff
    (self : RecurrenceWidget.t Options) (name : string) (value : WidgetValue)
    (attrs : option (gmap string string)) (out : SafeString) :
  RecurrenceWidget.render Options recurrence_serialize dumps textarea_render
    self name value attrs = inr out
  <-> exists a id options html,
        attrs = Some a
        /\ a !! "id"%string = Some id
        /\ dumps (RecurrenceWidget.js_widget_options Options self)
           = inr options
        /\ textarea_render self name
             match value with
             | NoValue => ""%string
             | RecurrenceValue o => recurrence_serialize o
             | TextValue s => s
             end attrs = inr html
        /\ out = mark_safe
                   (html +:+ String (ascii_of_nat 10) EmptyString
                    +:+ RecurrenceWidget.widget_init_js id options).
Proof.
  unfold RecurrenceWidget.render. split.
  - destruct attrs as [a|]; [|discriminate].
    destruct (a !! "id"%string) as [id|] eqn:Hid; [|discriminate].
    destruct (dumps _) as [e|options] eqn:Hd; [discriminate|].
    destruct (textarea_render _ _ _ _) as [e|html] eqn:Hr; [discriminate|].
    intros [= <-]. by exists a, id, options, html.
  - intros (a & id & options & html & -> & Hid & Hd & Hr & ->).
    by rewrite Hid, Hd, Hr.
Qed.

End WidgetFacts.

(** X13.  The media of the widget are three fixed paths glued to the
    media prefix, with nothing put between: the scripts
    [js/recurrence.js] then [js/widget.js], and the one style sheet
    [css/recurrence.css], for all media.  The prefix is the setting
    [RECURRENCE_MEDIA_PREFIX] when it is set; when it is not, the paths
    are those under [/]. *)
Theorem get_media_paths (settings : gmap string string) :
  (forall media_prefix,
     settings !! "RECURRENCE_MEDIA_PREFIX"%string = Some media_prefix ->
     RecurrenceWidget.get_media settings
     = mkMedia
         [ (media_prefix +:+ "js/recurrence.js")%string;
           (media_prefix +:+ "js/widget.js")%string ]
         {[ "all"%string :=
              [ (media_prefix +:+ "css/recurrence.css")%string ] ]})
  /\ (settings !! "RECURRENCE_MEDIA_PREFIX"%string = None ->
      RecurrenceWidget.get_media settings
      = mkMedia [ "/js/recurrence.js"%string; "/js/widget.js"%string ]
                {[ "all"%string := [ "/css/recurrence.css"%string ] ]}).
Proof.
  unfold RecurrenceWidget.get_media. split.
  - by intros media_prefix ->.
  - by intros ->.
Qed.

(** ** Concrete runs of the further facts *)

(** X1 on a weekly rule under a weekly whitelist with room for it. *)
Lemma clean_accepts_iff_witness :
  exists l,
    (clean (parsed one_weekly)
       (__init__ charfield_error_messages (Some [WEEKLY]) true true
          (Some 1) None None None None) "" ∅).1 = Return l.
Proof.
  apply (clean_accepts_iff
           (parsed one_weekly)
           _ "" one_weekly ∅ eq_refl).
  split.
  - intros c Hc. destruct c; vm_compute in Hc; by try discriminate.
  - intros r Hr. apply list_elem_of_singleton in Hr as ->. left.
Defined.

(** X2: from one weekly rule at most to two rules, weekly or daily. *)
Lemma clean_accepts_monotone_witness :
  exists l',
    (clean (parsed one_weekly)
       (__init__ charfield_error_messages (Some [WEEKLY; DAILY]) false true
          (Some 2) None None None None) "" ∅).1 = Return l'.
Proof.
  apply (clean_accepts_monotone
           (parsed one_weekly)
           (__init__ charfield_error_messages (Some [WEEKLY]) true true
              (Some 1) None None None None)
           (__init__ charfield_error_messages (Some [WEEKLY; DAILY])
              false true (Some 2) None None None None)
           "" one_weekly ∅ ∅ eq_refl).
  - intros c max' Hmax'. destruct c; try discriminate.
    injection Hmax' as <-. exists 1. split; [reflexivity|lia].
  - intros f Hf. apply list_elem_of_singleton in Hf as ->. left.
  - by exists 1%positive.
Defined.

(** X3 on the empty model with [max_rdates = -1]. *)
Lemma negative_max_rejects_all_witness :
  (exists e, (clean (parsed nothing) negative_rdates "" ∅).1 = Raise e)
  /\ ~ exists l, (clean (parsed nothing) negative_rdates "" ∅).1 = Return l.
Proof.
  apply (negative_max_rejects_all (parsed nothing) negative_rdates
           "" nothing ∅ Rdates (-1) eq_refl eq_refl).
  lia.
Defined.

(** X4 on [busy]. *)
Lemma default_field_accepts_all_witness :
  clean (parsed busy)
    (__init__ charfield_error_messages None true true
       None None None None None) "" ∅
  = (Return 1%positive, {[ 1%positive := busy ]}).
Proof.
  exact (default_field_accepts_all (parsed busy) charfield_error_messages
           None "" busy ∅ eq_refl).
Defined.

(** X5 with a parser that refuses every text. *)
Lemma clean_propagates_parse_error_witness :
  clean refusing weekly_only "RRULE" ∅
  = (Raise (FormatError 1 "unknown directive"), ∅).
Proof.
  exact (clean_propagates_parse_error refusing weekly_only "RRULE"
           _ ∅ eq_refl).
Defined.

(** X6: with no frequency allowed, one rule is enough to be refused. *)
Lemma empty_frequencies_reject_rules_witness :
  ~ exists l,
      (clean (parsed (mkRecurrence None None [daily] [] [] []))
         (__init__ charfield_error_messages (Some []) true true
            None None None None None) "" ∅).1 = Return l.
Proof.
  intros Hl.
  apply (empty_frequencies_reject_rules
           (parsed (mkRecurrence None None [daily] [] [] []))
           charfield_error_messages true true None None None None None
           "" (mkRecurrence None None [daily] [] [] []) ∅ eq_refl) in Hl.
  by destruct Hl as [Hrr _].
Defined.

(** X9: two models with one monthly rule each, which differ in their
    anchors, in the count of the rule and in their dates. *)
Lemma clean_reads_sizes_and_frequencies_witness :
  (clean (parsed_or "a"
            (mkRecurrence (Some new_year) None [monthly] [] [new_year] [])
            (mkRecurrence None None
               [mkRule MONTHLY 3 (Some 5%nat) None None None None None] []
               [mkTimestamp 1999 12 31 None] []))
     weekly_only "a" ∅).1
  = (clean (parsed_or "a"
              (mkRecurrence (Some new_year) None [monthly] [] [new_year] [])
              (mkRecurrence None None
                 [mkRule MONTHLY 3 (Some 5%nat) None None None None None] []
                 [mkTimestamp 1999 12 31 None] []))
       weekly_only "b" ∅).1.
Proof.
  apply (clean_reads_sizes_and_frequencies
           (parsed_or "a"
              (mkRecurrence (Some new_year) None [monthly] [] [new_year] [])
              (mkRecurrence None None
                 [mkRule MONTHLY 3 (Some 5%nat) None None None None None] []
                 [mkTimestamp 1999 12 31 None] []))
           weekly_only "a" "b" _ _ ∅ eq_refl eq_refl).
  - by intros [].
  - reflexivity.
  - reflexivity.
Defined.

(** X11 on attributes that hold a [class] and no [id]. *)
Lemma render_without_id_witness :
  RecurrenceWidget.render unit serialize (fun _ => inr "{}"%string)
    (fun _ _ value _ => inr value)
    (RecurrenceWidget.__init__ unit None ()) "recurrence" (RecurrenceValue busy)
    (Some {[ "class"%string := "wide"%string ]})
  = inl (Raised (KeyError "id")).
Proof.
  apply (render_without_id unit serialize (fun _ => inr "{}"%string)
           (fun _ _ value _ => inr value)
           (RecurrenceWidget.__init__ unit None ()) "recurrence"
           (RecurrenceValue busy) {[ "class"%string := "wide"%string ]}).
  reflexivity.
Defined.

Section CallsOfClean.

Variable parser : string -> Outcome Recurrence.
Variable inherited : gmap string string.


(** X15.  The frequencies of a field count as a set: two fields that
    differ only in their sequences of frequencies, with the same members in
    any order and any number of times, return or raise alike. *)
Theorem frequencies_as_a_set
    (self : RecurrenceField) (fs : list Frequency) (value : string)
    (h : store) :
  (forall f, f ∈ fs <-> f ∈ frequencies self) ->
  (clean parser
     (mkRecurrenceField (accept_dtstart self) (accept_dtend self)
        (max_rrules self) (max_exrules self) (max_rdates self)
        (max_exdates self) fs (error_messages self)) value h).1
  = (clean parser self value h).1.
Proof.
  intros Hfs. destruct (parser value) as [o|e] eqn:Hp.
  - rewrite !(clean_run parser _ value o h Hp). cbn [fst].
    set (self' := mkRecurrenceField _ _ _ _ _ _ fs _).
    assert (Hf : filter (disallowed self') (rrules o ++ exrules o)
                 = filter (disallowed self) (rrules o ++ exrules o)).
    { apply list_filter_iff. intros r. unfold disallowed.
      cbn [self' frequencies]. by rewrite Hfs. }
    unfold verdict, violations. rewrite Hf. reflexivity.
  - by rewrite !(clean_parse_error parser _ value e h Hp).
Qed.

(** X16.  What [clean] can do with a text that parses, for a field
    built without an [error_messages] argument: return the new object,
    when the object violates nothing; raise the [LimitExceeded] error of
    the first collection over its max; or, with no collection over its
    max and a rule of a frequency outside the field's, raise what the
    frequency check raises, which is the [ValidationError] with the message
    a base class declares under [invalid_frequency], or the [KeyError] for
    that key when none does. *)
Theorem clean_outcomes
    (fs : option (list Frequency)) (a b : bool) (m1 m2 m3 m4 : option Z)
    (value : string) (o : Recurrence) (h : store) :
  let self := __init__ inherited fs a b m1 m2 m3 m4 None in
  parser value = Return o ->
  ((forall c, ~ exceeds self o c)
   /\ (forall r, r ∈ rrules o ++ exrules o -> freq r ∈ frequencies self)
   /\ (clean parser self value h).1 = Return (fresh (dom h)))
  \/ (exists c max,
        policy_max self c = Some max
        /\ Z.of_nat (size_of c o) > max
        /\ (forall c', c' ∈ before c -> ~ exceeds self o c')
        /\ (clean parser self value h).1 = Raise (LimitExceeded c max))
  \/ ((forall c, ~ exceeds self o c)
      /\ (exists r, r ∈ rrules o ++ exrules o
                    /\ freq r ∉ frequencies self)
      /\ ((exists message,
             inherited !! "invalid_frequency"%string = Some message
             /\ (clean parser self value h).1
                = Raise (ValidationError (Plain message)))
          \/ (inherited !! "invalid_frequency"%string = None
              /\ (clean parser self value h).1
                 = Raise (KeyError "invalid_frequency")))).
Proof.
  intros self Hp. rewrite (clean_run parser self value o h Hp). cbn [fst].
  unfold verdict.
  destruct (violations self o) as [|e es] eqn:Hv.
  { left. apply violations_nil in Hv as [Hnone Hallowed]. by repeat split. }
  right.
  assert (Hhead : head (violations self o) = Some e) by by rewrite Hv.
  destruct (head_violations_inv _ _ _ Hhead)
    as [(c & max & Hmax & Hsize & Hbefore & ->)
       |(Hnone & (r & Hr & Hd) & ->)].
  - left. exists c, max. repeat split; try assumption.
    unfold self. by rewrite limit_failure_default.
  - right. split; [exact Hnone|]. split; [by exists r|].
    unfold frequency_failure, self. cbn [__init__ error_messages].
    unfold build_error_messages. cbn [default].
    rewrite (left_id_L ∅ (∪)), lookup_union.
    assert (Hclass : default_error_messages !! "invalid_frequency"%string
                     = None) by reflexivity.
    rewrite Hclass, (left_id_L None _).
    destruct (inherited !! "invalid_frequency"%string) as [message|];
      [left; by exists message|by right].
Qed.

End CallsOfClean.


(** X15 with the whitelist of [weekly_only] written twice. *)
Lemma frequencies_as_a_set_witness :
  (clean (parsed one_weekly)
     (__init__ charfield_error_messages (Some [WEEKLY; WEEKLY]) false true
        (Some 1) None None (Some 0) None) "" ∅).1
  = (clean (parsed one_weekly) weekly_only "" ∅).1.
Proof.
  apply (frequencies_as_a_set (parsed one_weekly) weekly_only
           [WEEKLY; WEEKLY] "" ∅).
  intros f. cbn. rewrite !elem_of_cons. tauto.
Defined.

(** X16 on the model that [weekly_only] refuses for its rrules: of the
    three cases it is the second. *)
Lemma clean_outcomes_witness :
  exists c max,
    policy_max weekly_only c = Some max
    /\ Z.of_nat (size_of c crowded) > max
    /\ (forall c', c' ∈ before c -> ~ exceeds weekly_only crowded c')
    /\ (clean (parsed crowded) weekly_only "" ∅).1
       = Raise (LimitExceeded c max).
Proof.
  destruct (clean_outcomes (parsed crowded) charfield_error_messages
              (Some [WEEKLY]) false true (Some 1) None None (Some 0)
              "" crowded ∅ eq_refl)
    as [(Hnone & _)|[Hlimit|(Hnone & _)]].
  - destruct (Hnone Rrules). by vm_compute.
  - exact Hlimit.
  - destruct (Hnone Rrules). by vm_compute.
Defined.
